(** * structural-analysis: Euler-Bernoulli beam solver and Euler buckling

    A shallow embedding of [BeamTheory.euler_bernoulli] (with its eight
    closed-form sub-solvers) from [src/structural_analysis/beam_theory.py]
    and of [ColumnTheory.euler_buckling] from
    [src/structural_analysis/column_theory.py].

    Numeric convention.  Python and NumPy floats are idealised as real
    numbers: no rounding, no NaN, no infinities.  Every divisor met after
    validation is a product of validated positive quantities, so division
    is used as the total real division.  The two exceptions of Python's
    float arithmetic, [OverflowError] (a power out of range) and
    [ZeroDivisionError] (a divisor that is, or underflows to, zero), are
    therefore outside the model: where the code would raise one of them
    the model returns.  Statements about errors speak of the exceptions
    the code raises by itself or through NumPy's argument checks
    ([ValueError], [AssertionError], [IndexError], [KeyError]).
    Strings stay strings (the [Literal] annotations are not enforced at
    run time), the station count is a Python [int] (here [Z]), an
    optional position is an [option], a raised exception is the [Raise]
    branch of [result]. *)

From Stdlib Require Import Reals Lra Psatz Lia ZArith String List Bool.
From Stdlib Require Import DecimalString.
Import ListNotations.

Open Scope string_scope.
Open Scope list_scope.
Open Scope R_scope.

(** ** Python values *)

(** Comparisons of floats, as booleans. *)
Definition Rleb (x y : R) : bool := if Rle_dec x y then true else false.
Definition Rltb (x y : R) : bool := if Rlt_dec x y then true else false.
Definition Rgtb (x y : R) : bool := Rltb y x.
Definition Reqb (x y : R) : bool := if Req_dec_T x y then true else false.

(** ["%s" % n] for an [int]. *)
Definition str (n : Z) : string := NilZero.string_of_int (Z.to_int n).

(** [v is None] *)
Definition is_None {A : Type} (v : option A) : bool :=
  match v with
  | None => true
  | Some _ => false
  end.

(** The exceptions that the modelled code can raise. *)
Inductive exn : Type :=
| ValueError (msg : string)
| KeyError (key : string)
| IndexError (msg : string)
| AssertionError.

Inductive result (A : Type) : Type :=
| Ok (a : A)
| Raise (e : exn).

Arguments Ok {A} a.
Arguments Raise {A} e.

Definition bind {A B : Type} (m : result A) (k : A -> result B) : result B :=
  match m with
  | Ok a => k a
  | Raise e => Raise e
  end.

Notation "x <- m ;; k" := (bind m (fun x => k))
  (at level 61, m at next level, right associativity).
Notation "' p <- m ;; k" := (bind m (fun p => k))
  (at level 61, p pattern, m at next level, right associativity).

Definition returns {A : Type} (m : result A) : Prop := exists a, m = Ok a.
Definition raises {A : Type} (m : result A) : Prop := exists e, m = Raise e.

(** ** The NumPy operations the solvers use

    NumPy is an external library; these definitions follow its
    documented behaviour on one-dimensional float arrays. *)
Module np.

(** [np.arange(0, n)] as floats. *)
Definition arange (n : nat) : list R := map INR (seq 0 n).

(** [y[-1] = v] on a non-empty array. *)
Definition set_last (y : list R) (v : R) : list R := removelast y ++ [v].

(** [np.linspace(start, stop, num)] with [endpoint=True]: a negative
    count is a [ValueError] whose message quotes the count;
    otherwise [div = num - 1],
    [step = delta / div], [y = arange(0, num) * step + start] (or
    [arange * delta + start] when [div = 0]) and, when [num > 1],
    the last sample is overwritten with [stop]. *)
Definition linspace (start stop : R) (num : Z) : result (list R) :=
  if (num <? 0)%Z
  then Raise (ValueError
    ("Number of samples, " ++ str num ++ ", must be non-negative.")%string)
  else
    let n := Z.to_nat num in
    let div := (n - 1)%nat in
    let delta := stop - start in
    let y :=
      if (0 <? div)%nat
      then let step := delta / INR div in
           map (fun k => k * step + start) (arange n)
      else map (fun k => k * delta + start) (arange n) in
    Ok (if (1 <? n)%nat then set_last y stop else y).

(** [np.zeros_like(x)] *)
Definition zeros_like (x : list R) : list R := map (fun _ => 0) x.

(** [arr.fill(v)] *)
Definition fill (arr : list R) (v : R) : list R := map (fun _ => v) arr.

(** [np.abs(arr)] *)
Definition abs (arr : list R) : list R := map Rabs arr.

(** [np.max(arr)]: the reduction has no identity, an empty array is a
    [ValueError]. *)
Definition max (arr : list R) : result R :=
  match arr with
  | [] => Raise (ValueError
      "zero-size array to reduction operation maximum which has no identity")
  | h :: t => Ok (fold_left Rmax t h)
  end.

(** [arr[i] = v]; an index out of range is an [IndexError]. *)
Fixpoint setitem (arr : list R) (i : nat) (v : R) : result (list R) :=
  match arr, i with
  | [], _ => Raise (IndexError "index out of bounds")
  | _ :: t, O => Ok (v :: t)
  | h :: t, S j => t' <- setitem t j v ;; Ok (h :: t')
  end.

End np.

(** [for i, xi in enumerate(x): body], threading the arrays that the
    body assigns to. *)
Fixpoint for_enumerate_from {St : Type} (i : nat) (x : list R) (s : St)
    (body : nat -> R -> St -> result St) : result St :=
  match x with
  | [] => Ok s
  | xi :: rest => s' <- body i xi s ;; for_enumerate_from (S i) rest s' body
  end.

Definition for_enumerate {St : Type} (x : list R) (s : St)
    (body : nat -> R -> St -> result St) : result St :=
  for_enumerate_from 0 x s body.

(** ** beam_theory.py *)
Module BeamTheory.

(** The three arrays a sub-solver returns. *)
Definition fields : Type := (list R * list R * list R)%type.

(** Simply supported beam with point load at position a. *)
Definition _simply_supported_point_load
    (x : list R) (L E moment_of_inertia P a : R) : result fields :=
  let b := L - a in
  let deflection := np.zeros_like x in
  let moment := np.zeros_like x in
  let shear := np.zeros_like x in
  deflection <- for_enumerate x deflection (fun i xi deflection =>
    if Rleb xi a
    then np.setitem deflection i
           ((P * b * xi * (L ^ 2 - b ^ 2 - xi ^ 2))
            / (6 * E * moment_of_inertia * L))
    else np.setitem deflection i
           ((P * a * (L - xi) * (2 * L * xi - xi ^ 2 - a ^ 2))
            / (6 * E * moment_of_inertia * L))) ;;
  let R1 := P * b / L in
  let R2 := P * a / L in
  moment <- for_enumerate x moment (fun i xi moment =>
    if Rleb xi a
    then np.setitem moment i (R1 * xi)
    else np.setitem moment i (R1 * xi - P * (xi - a))) ;;
  shear <- for_enumerate x shear (fun i xi shear =>
    if Rltb xi a
    then np.setitem shear i R1
    else if Rgtb xi a
    then np.setitem shear i (- R2)
    else np.setitem shear i 0) ;;
  Ok (deflection, moment, shear).

(** Simply supported beam with uniformly distributed load. *)
Definition _simply_supported_distributed_load
    (x : list R) (L E second_moment w : R) : result fields :=
  let deflection :=
    map (fun xi => (w * xi * (L ^ 3 - 2 * L * xi ^ 2 + xi ^ 3))
                   / (24 * E * second_moment)) x in
  let moment := map (fun xi => (w * xi * (L - xi)) / 2) x in
  let shear := map (fun xi => (w * L / 2) - w * xi) x in
  Ok (deflection, moment, shear).

(** Simply supported beam with applied moment at position a. *)
Definition _simply_supported_moment
    (x : list R) (L E moment_of_inertia M a : R) : result fields :=
  let deflection := np.zeros_like x in
  let moment := np.zeros_like x in
  let shear := np.zeros_like x in
  let M1 := M * (L - a) / L in
  let M2 := M * a / L in
  '(deflection, moment) <- for_enumerate x (deflection, moment)
    (fun i xi '(deflection, moment) =>
      if Rleb xi a
      then
        deflection <- np.setitem deflection i
          ((M1 * xi * (L ^ 2 - xi ^ 2)) / (6 * E * moment_of_inertia * L)) ;;
        moment <- np.setitem moment i (M1 * xi / L) ;;
        Ok (deflection, moment)
      else
        deflection <- np.setitem deflection i
          ((M2 * (L - xi) * (L ^ 2 - (L - xi) ^ 2))
           / (6 * E * moment_of_inertia * L)) ;;
        moment <- np.setitem moment i (M2 * (L - xi) / L) ;;
        Ok (deflection, moment)) ;;
  let shear := np.fill shear 0 in
  Ok (deflection, moment, shear).

(** Cantilever beam with point load at position a from fixed end. *)
Definition _cantilever_point_load
    (x : list R) (L E second_moment P a : R) : result fields :=
  let deflection := np.zeros_like x in
  let moment := np.zeros_like x in
  let shear := np.zeros_like x in
  for_enumerate x (deflection, moment, shear)
    (fun i xi '(deflection, moment, shear) =>
      if Rleb xi a
      then
        deflection <- np.setitem deflection i
          ((P * xi ^ 2 * (3 * a - xi)) / (6 * E * second_moment)) ;;
        moment <- np.setitem moment i (- P * (a - xi)) ;;
        shear <- np.setitem shear i (- P) ;;
        Ok (deflection, moment, shear)
      else
        deflection <- np.setitem deflection i
          ((P * a ^ 2 * (3 * xi - a)) / (6 * E * second_moment)) ;;
        moment <- np.setitem moment i 0 ;;
        shear <- np.setitem shear i 0 ;;
        Ok (deflection, moment, shear)).

(** Cantilever beam with uniformly distributed load. *)
Definition _cantilever_distributed_load
    (x : list R) (L E second_moment w : R) : result fields :=
  let deflection :=
    map (fun xi => (w * xi ^ 2 * (6 * L ^ 2 - 4 * L * xi + xi ^ 2))
                   / (24 * E * second_moment)) x in
  let moment := map (fun xi => - w * (L - xi) ^ 2 / 2) x in
  let shear := map (fun xi => - w * (L - xi)) x in
  Ok (deflection, moment, shear).

(** Cantilever beam with applied moment at position a from fixed end. *)
Definition _cantilever_moment
    (x : list R) (L E second_moment M a : R) : result fields :=
  let deflection := np.zeros_like x in
  let moment := np.zeros_like x in
  let shear := np.zeros_like x in
  '(deflection, moment) <- for_enumerate x (deflection, moment)
    (fun i xi '(deflection, moment) =>
      if Rleb xi a
      then
        deflection <- np.setitem deflection i
          ((M * xi ^ 2) / (2 * E * second_moment)) ;;
        moment <- np.setitem moment i (- M) ;;
        Ok (deflection, moment)
      else
        deflection <- np.setitem deflection i
          ((M * xi * (2 * a - xi)) / (2 * E * second_moment)) ;;
        moment <- np.setitem moment i 0 ;;
        Ok (deflection, moment)) ;;
  let shear := np.fill shear 0 in
  Ok (deflection, moment, shear).

(** Fixed-fixed beam with point load at position a. *)
Definition _fixed_fixed_point_load
    (x : list R) (L E second_moment P a : R) : result fields :=
  let b := L - a in
  let deflection := np.zeros_like x in
  let moment := np.zeros_like x in
  let shear := np.zeros_like x in
  let R1 := P * b ^ 2 * (3 * a + b) / L ^ 3 in
  let M1 := P * a * b ^ 2 / L ^ 2 in
  for_enumerate x (deflection, moment, shear)
    (fun i xi '(deflection, moment, shear) =>
      if Rleb xi a
      then
        deflection <- np.setitem deflection i
          ((R1 * xi ^ 3 / 6 - M1 * xi ^ 2 / 2) / (E * second_moment)) ;;
        moment <- np.setitem moment i (R1 * xi - M1) ;;
        shear <- np.setitem shear i R1 ;;
        Ok (deflection, moment, shear)
      else
        deflection <- np.setitem deflection i
          ((R1 * xi ^ 3 / 6 - M1 * xi ^ 2 / 2 - P * (xi - a) ^ 3 / 6)
           / (E * second_moment)) ;;
        moment <- np.setitem moment i (R1 * xi - M1 - P * (xi - a)) ;;
        shear <- np.setitem shear i (R1 - P) ;;
        Ok (deflection, moment, shear)).

(** Fixed-fixed beam with uniformly distributed load. *)
Definition _fixed_fixed_distributed_load
    (x : list R) (L E second_moment w : R) : result fields :=
  let deflection :=
    map (fun xi => (w * xi ^ 2 * (L - xi) ^ 2) / (24 * E * second_moment))
        x in
  let moment :=
    map (fun xi => (w * L ^ 2 / 12) - (w * xi * (L - xi)) / 2) x in
  let shear := map (fun xi => (w * L / 2) - w * xi) x in
  Ok (deflection, moment, shear).

(** The returned dictionary. *)
Record BeamResult : Type := mkBeamResult {
  x : list R;
  deflection : list R;
  moment : list R;
  shear : list R;
  max_deflection : R;
  max_moment : R
}.

(** [assert load_position is not None] followed by the call that uses
    the position. *)
Definition assert_not_None {A : Type} (load_position : option R)
    (k : R -> result A) : result A :=
  match load_position with
  | Some a => k a
  | None => Raise AssertionError
  end.

(** Classical Euler-Bernoulli beam bending analysis. *)
Definition euler_bernoulli (length E second_moment : R)
    (load_type : string) (load_magnitude : R) (load_position : option R)
    (boundary_conditions : string) (num_points : Z) : result BeamResult :=
  if Rleb length 0 || Rleb E 0 || Rleb second_moment 0
  then Raise (ValueError "Length, E, and second_moment must be positive")
  else if Reqb load_magnitude 0
  then Raise (ValueError "Load magnitude cannot be zero")
  else if (load_type =? "point")%string && is_None load_position
  then Raise (ValueError "Point load requires load_position")
  else if (load_type =? "moment")%string && is_None load_position
  then Raise (ValueError "Applied moment requires load_position")
  else
    x <- np.linspace 0 length num_points ;;
    let deflection := np.zeros_like x in
    let moment := np.zeros_like x in
    let shear := np.zeros_like x in
    '(deflection, moment, shear) <-
      (if (boundary_conditions =? "simply_supported")%string then
         if (load_type =? "point")%string then
           assert_not_None load_position
             (_simply_supported_point_load
                x length E second_moment load_magnitude)
         else if (load_type =? "distributed")%string then
           _simply_supported_distributed_load
             x length E second_moment load_magnitude
         else if (load_type =? "moment")%string then
           assert_not_None load_position
             (_simply_supported_moment
                x length E second_moment load_magnitude)
         else Ok (deflection, moment, shear)
       else if (boundary_conditions =? "cantilever")%string then
         if (load_type =? "point")%string then
           assert_not_None load_position
             (_cantilever_point_load
                x length E second_moment load_magnitude)
         else if (load_type =? "distributed")%string then
           _cantilever_distributed_load
             x length E second_moment load_magnitude
         else if (load_type =? "moment")%string then
           assert_not_None load_position
             (_cantilever_moment x length E second_moment load_magnitude)
         else Ok (deflection, moment, shear)
       else if (boundary_conditions =? "fixed_fixed")%string then
         if (load_type =? "point")%string then
           assert_not_None load_position
             (_fixed_fixed_point_load
                x length E second_moment load_magnitude)
         else if (load_type =? "distributed")%string then
           _fixed_fixed_distributed_load
             x length E second_moment load_magnitude
         else Ok (deflection, moment, shear)
       else Ok (deflection, moment, shear)) ;;
    max_deflection <- np.max (np.abs deflection) ;;
    max_moment <- np.max (np.abs moment) ;;
    Ok {| x := x;
          deflection := deflection;
          moment := moment;
          shear := shear;
          max_deflection := max_deflection;
          max_moment := max_moment |}.

(** The default of [num_points]. *)
Definition default_num_points : Z := 100.

End BeamTheory.

(** ** column_theory.py *)
Module ColumnTheory.

(** [EulerBucklingResult] *)
Record EulerBucklingResult : Type := mkEulerBucklingResult {
  critical_load : R;
  design_load : R;
  critical_stress : R;
  effective_length : R;
  K_factor : R;
  slenderness_ratio : R;
  radius_of_gyration : R;
  recommendation : string
}.

(** Effective length factors for different end conditions. *)
Definition K_factors : list (string * R) :=
  [ ("pinned", 1.0);
    ("fixed", 0.5);
    ("fixed_free", 2.0);
    ("fixed_pinned", 0.7) ].

(** [d[key]] on a dict with string keys: a missing key is a
    [KeyError]. *)
Fixpoint getitem (d : list (string * R)) (key : string) : result R :=
  match d with
  | [] => Raise (KeyError key)
  | (k, v) :: rest => if (k =? key)%string then Ok v else getitem rest key
  end.

Definition short_column : string :=
  "Short column - check crushing/yielding instead of buckling".
Definition intermediate_column : string :=
  "Intermediate column - consider inelastic buckling".
Definition long_column : string :=
  "Long column - Euler buckling applicable".
Definition very_slender : string :=
  "Very slender - verify assumptions and consider imperfections".

(** The [if]/[elif] chain on the slenderness ratio. *)
Definition recommend (slenderness_ratio : R) : string :=
  if Rltb slenderness_ratio 50 then short_column
  else if Rltb slenderness_ratio 100 then intermediate_column
  else if Rltb slenderness_ratio 200 then long_column
  else very_slender.

(** Elastic buckling theory - Euler's critical load calculation. *)
Definition euler_buckling (length E second_moment : R)
    (end_conditions : string) (safety_factor : R)
    : result EulerBucklingResult :=
  if Rleb length 0
  then Raise (ValueError "Length must be positive")
  else if Rleb E 0
  then Raise (ValueError "Elastic modulus must be positive")
  else if Rleb second_moment 0
  then Raise (ValueError "Second moment of area must be positive")
  else if Rleb safety_factor 0
  then Raise (ValueError "Safety factor must be positive")
  else
    K <- getitem K_factors end_conditions ;;
    let effective_length := K * length in
    let critical_load :=
      (PI ^ 2 * E * second_moment) / (effective_length ^ 2) in
    let design_load := critical_load / safety_factor in
    let estimated_area := sqrt second_moment in
    let radius_of_gyration := sqrt (second_moment / estimated_area) in
    let slenderness_ratio := effective_length / radius_of_gyration in
    let critical_stress := critical_load / estimated_area in
    let recommendation := recommend slenderness_ratio in
    Ok {| critical_load := critical_load;
          design_load := design_load;
          critical_stress := critical_stress;
          effective_length := effective_length;
          K_factor := K;
          slenderness_ratio := slenderness_ratio;
          radius_of_gyration := radius_of_gyration;
          recommendation := recommendation |}.

(** The defaults of [end_conditions] and [safety_factor]. *)
Definition default_end_conditions : string := "pinned".
Definition default_safety_factor : R := 1.0.

End ColumnTheory.

(** ** Vocabulary of the statements *)
Module BeamSpec.
Import BeamTheory.

(** What [euler_bernoulli] computes once validation has passed and the
    sub-solver has been chosen: the stations, the three arrays as maps of
    the station functions [fd], [fm], [fs], and the two maxima. *)
Definition stationwise (L : R) (N : Z) (fd fm fs : R -> R)
    : result BeamResult :=
  x <- np.linspace 0 L N ;;
  max_deflection <- np.max (np.abs (map fd x)) ;;
  max_moment <- np.max (np.abs (map fm x)) ;;
  Ok {| x := x;
        deflection := map fd x;
        moment := map fm x;
        shear := map fs x;
        max_deflection := max_deflection;
        max_moment := max_moment |}.

(** The conditions that the validation block tests, as the spec lists
    them. *)
Definition invalid_parameters (L E second_moment : R) (load_type : string)
    (load_magnitude : R) (load_position : option R) : Prop :=
  L <= 0 \/ E <= 0 \/ second_moment <= 0 \/ load_magnitude = 0
  \/ ((load_type = "point" \/ load_type = "moment")
      /\ load_position = None).

(** The four messages of the validation block. *)
Definition validation_messages : list string :=
  [ "Length, E, and second_moment must be positive";
    "Load magnitude cannot be zero";
    "Point load requires load_position";
    "Applied moment requires load_position" ].

End BeamSpec.

Module ColumnSpec.

(** The end conditions that the spec lists, the keys of [K_factors]. *)
Definition end_condition_names : list string :=
  [ "pinned"; "fixed"; "fixed_free"; "fixed_pinned" ].

End ColumnSpec.

(** The closed forms behind the dispatch: for a boundary condition, a
    load type and the beam and load data, the three station functions
    whose maps over [x] the selected sub-solver returns (the zero
    functions where the dispatch selects none). *)
Module ClosedForm.

Record StationFields : Type := mkStationFields {
  at_deflection : R -> R;
  at_moment : R -> R;
  at_shear : R -> R
}.

Definition zero_fields : StationFields :=
  {| at_deflection := fun _ => 0;
     at_moment := fun _ => 0;
     at_shear := fun _ => 0 |}.

Definition simply_supported_point (L E I P a : R) : StationFields :=
  {| at_deflection := fun xi =>
       if Rleb xi a
       then (P * (L - a) * xi * (L ^ 2 - (L - a) ^ 2 - xi ^ 2))
            / (6 * E * I * L)
       else (P * a * (L - xi) * (2 * L * xi - xi ^ 2 - a ^ 2))
            / (6 * E * I * L);
     at_moment := fun xi =>
       if Rleb xi a
       then P * (L - a) / L * xi
       else P * (L - a) / L * xi - P * (xi - a);
     at_shear := fun xi =>
       if Rltb xi a then P * (L - a) / L
       else if Rgtb xi a then - (P * a / L)
       else 0 |}.

Definition simply_supported_distributed (L E I w : R) : StationFields :=
  {| at_deflection := fun xi =>
       (w * xi * (L ^ 3 - 2 * L * xi ^ 2 + xi ^ 3)) / (24 * E * I);
     at_moment := fun xi => (w * xi * (L - xi)) / 2;
     at_shear := fun xi => (w * L / 2) - w * xi |}.

Definition simply_supported_moment (L E I M a : R) : StationFields :=
  {| at_deflection := fun xi =>
       if Rleb xi a
       then (M * (L - a) / L * xi * (L ^ 2 - xi ^ 2)) / (6 * E * I * L)
       else (M * a / L * (L - xi) * (L ^ 2 - (L - xi) ^ 2))
            / (6 * E * I * L);
     at_moment := fun xi =>
       if Rleb xi a
       then M * (L - a) / L * xi / L
       else M * a / L * (L - xi) / L;
     at_shear := fun _ => 0 |}.

Definition cantilever_point (L E I P a : R) : StationFields :=
  {| at_deflection := fun xi =>
       if Rleb xi a
       then (P * xi ^ 2 * (3 * a - xi)) / (6 * E * I)
       else (P * a ^ 2 * (3 * xi - a)) / (6 * E * I);
     at_moment := fun xi => if Rleb xi a then - P * (a - xi) else 0;
     at_shear := fun xi => if Rleb xi a then - P else 0 |}.

Definition cantilever_distributed (L E I w : R) : StationFields :=
  {| at_deflection := fun xi =>
       (w * xi ^ 2 * (6 * L ^ 2 - 4 * L * xi + xi ^ 2)) / (24 * E * I);
     at_moment := fun xi => - w * (L - xi) ^ 2 / 2;
     at_shear := fun xi => - w * (L - xi) |}.

Definition cantilever_moment (L E I M a : R) : StationFields :=
  {| at_deflection := fun xi =>
       if Rleb xi a
       then (M * xi ^ 2) / (2 * E * I)
       else (M * xi * (2 * a - xi)) / (2 * E * I);
     at_moment := fun xi => if Rleb xi a then - M else 0;
     at_shear := fun _ => 0 |}.

Definition fixed_fixed_point (L E I P a : R) : StationFields :=
  {| at_deflection := fun xi =>
       if Rleb xi a
       then (P * (L - a) ^ 2 * (3 * a + (L - a)) / L ^ 3 * xi ^ 3 / 6
             - P * a * (L - a) ^ 2 / L ^ 2 * xi ^ 2 / 2)
            / (E * I)
       else (P * (L - a) ^ 2 * (3 * a + (L - a)) / L ^ 3 * xi ^ 3 / 6
             - P * a * (L - a) ^ 2 / L ^ 2 * xi ^ 2 / 2
             - P * (xi - a) ^ 3 / 6)
            / (E * I);
     at_moment := fun xi =>
       if Rleb xi a
       then P * (L - a) ^ 2 * (3 * a + (L - a)) / L ^ 3 * xi
            - P * a * (L - a) ^ 2 / L ^ 2
       else P * (L - a) ^ 2 * (3 * a + (L - a)) / L ^ 3 * xi
            - P * a * (L - a) ^ 2 / L ^ 2 - P * (xi - a);
     at_shear := fun xi =>
       if Rleb xi a
       then P * (L - a) ^ 2 * (3 * a + (L - a)) / L ^ 3
       else P * (L - a) ^ 2 * (3 * a + (L - a)) / L ^ 3 - P |}.

Definition fixed_fixed_distributed (L E I w : R) : StationFields :=
  {| at_deflection := fun xi =>
       (w * xi ^ 2 * (L - xi) ^ 2) / (24 * E * I);
     at_moment := fun xi => (w * L ^ 2 / 12) - (w * xi * (L - xi)) / 2;
     at_shear := fun xi => (w * L / 2) - w * xi |}.

(** The position that reaches a sub-solver; a point or moment load
    without one has been rejected before. *)
Definition position (load_position : option R) : R :=
  match load_position with
  | Some a => a
  | None => 0
  end.

Definition closed_form (boundary_conditions load_type : string)
    (L E I load_magnitude : R) (load_position : option R) : StationFields :=
  let a := position load_position in
  if (boundary_conditions =? "simply_supported")%string then
    if (load_type =? "point")%string
    then simply_supported_point L E I load_magnitude a
    else if (load_type =? "distributed")%string
    then simply_supported_distributed L E I load_magnitude
    else if (load_type =? "moment")%string
    then simply_supported_moment L E I load_magnitude a
    else zero_fields
  else if (boundary_conditions =? "cantilever")%string then
    if (load_type =? "point")%string
    then cantilever_point L E I load_magnitude a
    else if (load_type =? "distributed")%string
    then cantilever_distributed L E I load_magnitude
    else if (load_type =? "moment")%string
    then cantilever_moment L E I load_magnitude a
    else zero_fields
  else if (boundary_conditions =? "fixed_fixed")%string then
    if (load_type =? "point")%string
    then fixed_fixed_point L E I load_magnitude a
    else if (load_type =? "distributed")%string
    then fixed_fixed_distributed L E I load_magnitude
    else zero_fields
  else zero_fields.

(** The combinations that the dispatch implements. *)
Definition implemented (boundary_conditions load_type : string) : bool :=
  if (boundary_conditions =? "simply_supported")%string
     || (boundary_conditions =? "cantilever")%string
  then (load_type =? "point")%string || (load_type =? "distributed")%string
       || (load_type =? "moment")%string
  else if (boundary_conditions =? "fixed_fixed")%string
  then (load_type =? "point")%string || (load_type =? "distributed")%string
  else false.

End ClosedForm.

(** * Properties *)

(** ** Comparisons *)
Section Comparisons.

Variables x y : R.

Lemma Rleb_true : Rleb x y = true <-> x <= y.
Proof. unfold Rleb. destruct (Rle_dec x y); split; intros; [ | | discriminate | ]; tauto. Qed.

Lemma Rleb_false : Rleb x y = false <-> y < x.
Proof.
  unfold Rleb. destruct (Rle_dec x y); split; intros;
    try reflexivity; try discriminate; lra.
Qed.

Lemma Rltb_true : Rltb x y = true <-> x < y.
Proof. unfold Rltb. destruct (Rlt_dec x y); split; intros; [ | | discriminate | ]; tauto. Qed.

Lemma Rltb_false : Rltb x y = false <-> y <= x.
Proof.
  unfold Rltb. destruct (Rlt_dec x y); split; intros;
    try reflexivity; try discriminate; lra.
Qed.

Lemma Reqb_true : Reqb x y = true <-> x = y.
Proof. unfold Reqb. destruct (Req_dec_T x y); split; intros; [ | | discriminate | ]; tauto. Qed.

Lemma Reqb_false : Reqb x y = false <-> x <> y.
Proof.
  unfold Reqb. destruct (Req_dec_T x y); split; intros;
    try reflexivity; try discriminate; tauto.
Qed.

End Comparisons.

(** Decide the comparison at the head of the goal from the context. *)
Ltac Rcmp_true c :=
  let H := fresh in
  assert (H : c = true)
    by (first [ apply Rleb_true | apply Rltb_true | apply Reqb_true
              | unfold Rgtb; apply Rltb_true ]; lra);
  rewrite H; clear H.

Ltac Rcmp_false c :=
  let H := fresh in
  assert (H : c = false)
    by (first [ apply Rleb_false | apply Rltb_false | apply Reqb_false
              | unfold Rgtb; apply Rltb_false ]; lra);
  rewrite H; clear H.

(** ** Arrays and loops *)
Section Loops.

Lemma zeros_like_length (x : list R) :
  length (np.zeros_like x) = length x.
Proof. apply length_map. Qed.

Lemma fill_zeros_like (x : list R) :
  np.fill (np.zeros_like x) 0 = np.zeros_like x.
Proof. unfold np.fill, np.zeros_like. rewrite map_map. reflexivity. Qed.

(** An assignment at the first cell that the loop has not reached. *)
Lemma setitem_app (pre : list R) (h v : R) (t : list R) :
  np.setitem (pre ++ h :: t) (length pre) v = Ok (pre ++ v :: t).
Proof.
  induction pre as [| p pre IH]; simpl.
  - reflexivity.
  - rewrite IH. reflexivity.
Qed.

Lemma setitem_out_of_range (arr : list R) (i : nat) (v : R) :
  (length arr <= i)%nat -> raises (np.setitem arr i v).
Proof.
  revert i. induction arr as [| h t IH]; intros i Hi; simpl.
  - destruct i; eexists; reflexivity.
  - destruct i as [| j]; [ simpl in Hi; lia | ].
    destruct (IH j) as [e He]; [ simpl in Hi; lia | ].
    rewrite He. eexists; reflexivity.
Qed.

Variables fd fm fs : R -> R.

(** A loop that assigns cell [i] of one array from [xi]. *)
Lemma for_enumerate_from_1 (body : nat -> R -> list R -> result (list R)) :
  (forall i xi d, body i xi d = np.setitem d i (fd xi)) ->
  forall rest pd,
    for_enumerate_from (length pd) rest (pd ++ np.zeros_like rest) body
    = Ok (pd ++ map fd rest).
Proof.
  intros Hbody. induction rest as [| xi rest IH]; intros pd; simpl.
  - reflexivity.
  - rewrite Hbody, setitem_app. simpl.
    specialize (IH (pd ++ [fd xi])).
    rewrite length_app in IH. simpl in IH.
    rewrite Nat.add_1_r, <- !app_assoc in IH. exact IH.
Qed.

(** A loop that assigns cell [i] of two arrays. *)
Lemma for_enumerate_from_2
    (body : nat -> R -> list R * list R -> result (list R * list R)) :
  (forall i xi d m,
     body i xi (d, m)
     = (d' <- np.setitem d i (fd xi) ;;
        m' <- np.setitem m i (fm xi) ;;
        Ok (d', m'))) ->
  forall rest pd pm,
    length pm = length pd ->
    for_enumerate_from (length pd) rest
      (pd ++ np.zeros_like rest, pm ++ np.zeros_like rest) body
    = Ok (pd ++ map fd rest, pm ++ map fm rest).
Proof.
  intros Hbody. induction rest as [| xi rest IH]; intros pd pm Hm; simpl.
  - reflexivity.
  - rewrite Hbody, setitem_app. simpl.
    rewrite <- Hm, setitem_app, Hm. simpl.
    specialize (IH (pd ++ [fd xi]) (pm ++ [fm xi])).
    rewrite !length_app in IH. simpl in IH.
    rewrite !Nat.add_1_r, <- !app_assoc in IH.
    apply IH. lia.
Qed.

(** A loop that assigns cell [i] of the three arrays. *)
Lemma for_enumerate_from_3
    (body : nat -> R -> BeamTheory.fields -> result BeamTheory.fields) :
  (forall i xi d m s,
     body i xi (d, m, s)
     = (d' <- np.setitem d i (fd xi) ;;
        m' <- np.setitem m i (fm xi) ;;
        s' <- np.setitem s i (fs xi) ;;
        Ok (d', m', s'))) ->
  forall rest pd pm ps,
    length pm = length pd -> length ps = length pd ->
    for_enumerate_from (length pd) rest
      (pd ++ np.zeros_like rest, pm ++ np.zeros_like rest,
       ps ++ np.zeros_like rest) body
    = Ok (pd ++ map fd rest, pm ++ map fm rest, ps ++ map fs rest).
Proof.
  intros Hbody. induction rest as [| xi rest IH]; intros pd pm ps Hm Hs; simpl.
  - reflexivity.
  - rewrite Hbody, setitem_app. simpl.
    rewrite <- Hm, setitem_app, Hm. simpl.
    rewrite <- Hs, setitem_app, Hs. simpl.
    specialize (IH (pd ++ [fd xi]) (pm ++ [fm xi]) (ps ++ [fs xi])).
    rewrite !length_app in IH. simpl in IH.
    rewrite !Nat.add_1_r, <- !app_assoc in IH.
    apply IH; lia.
Qed.

Lemma for_enumerate_1 body (x : list R) :
  (forall i xi d, body i xi d = np.setitem d i (fd xi)) ->
  for_enumerate x (np.zeros_like x) body = Ok (map fd x).
Proof. intros H. exact (for_enumerate_from_1 body H x []). Qed.

Lemma for_enumerate_2 body (x : list R) :
  (forall i xi d m,
     body i xi (d, m)
     = (d' <- np.setitem d i (fd xi) ;;
        m' <- np.setitem m i (fm xi) ;;
        Ok (d', m'))) ->
  for_enumerate x (np.zeros_like x, np.zeros_like x) body
  = Ok (map fd x, map fm x).
Proof. intros H. exact (for_enumerate_from_2 body H x [] [] eq_refl). Qed.

Lemma for_enumerate_3 body (x : list R) :
  (forall i xi d m s,
     body i xi (d, m, s)
     = (d' <- np.setitem d i (fd xi) ;;
        m' <- np.setitem m i (fm xi) ;;
        s' <- np.setitem s i (fs xi) ;;
        Ok (d', m', s'))) ->
  for_enumerate x (np.zeros_like x, np.zeros_like x, np.zeros_like x) body
  = Ok (map fd x, map fm x, map fs x).
Proof.
  intros H. exact (for_enumerate_from_3 body H x [] [] [] eq_refl eq_refl).
Qed.

End Loops.

(** ** The sub-solvers, station by station

    Every sub-solver returns without raising, and each returned array
    is a map of a per-station function over [x]. *)
Module Stationwise.
Import BeamTheory.

(** Rewrite the loops of a sub-solver with the station functions that
    the goal names on its right-hand side. *)
Ltac loop1 f :=
  rewrite (for_enumerate_1 f);
  [ cbn [bind]
  | intros ? ?xi ?;
    repeat match goal with
           | |- context [if ?c then _ else _] => destruct c
           end; reflexivity ].

Ltac loop2 :=
  match goal with
  | |- _ = Ok (map ?fd ?x, map ?fm ?x, _) =>
    rewrite (for_enumerate_2 fd fm);
    [ cbn [bind]
    | intros ? ?xi ? ?;
      repeat match goal with
             | |- context [if ?c then _ else _] => destruct c
             end; reflexivity ]
  end.

Ltac loop3 :=
  match goal with
  | |- _ = Ok (map ?fd ?x, map ?fm ?x, map ?fs ?x) =>
    rewrite (for_enumerate_3 fd fm fs);
    [ cbn [bind]
    | intros ? ?xi ? ? ?;
      repeat match goal with
             | |- context [if ?c then _ else _] => destruct c
             end; reflexivity ]
  end.

Section SubSolvers.

Variables (x : list R) (L E second_moment : R).

Lemma simply_supported_point_load_eq (P a : R) :
  _simply_supported_point_load x L E second_moment P a
  = Ok (map (fun xi =>
               if Rleb xi a
               then (P * (L - a) * xi * (L ^ 2 - (L - a) ^ 2 - xi ^ 2))
                    / (6 * E * second_moment * L)
               else (P * a * (L - xi) * (2 * L * xi - xi ^ 2 - a ^ 2))
                    / (6 * E * second_moment * L)) x,
        map (fun xi =>
               if Rleb xi a
               then P * (L - a) / L * xi
               else P * (L - a) / L * xi - P * (xi - a)) x,
        map (fun xi =>
               if Rltb xi a then P * (L - a) / L
               else if Rgtb xi a then - (P * a / L)
               else 0) x).
Proof.
  unfold _simply_supported_point_load. cbv zeta.
  match goal with
  | |- _ = Ok (map ?fd _, map ?fm _, map ?fs _) =>
    loop1 fd; loop1 fm; loop1 fs
  end.
  reflexivity.
Qed.

Lemma simply_supported_moment_eq (M a : R) :
  _simply_supported_moment x L E second_moment M a
  = Ok (map (fun xi =>
               if Rleb xi a
               then (M * (L - a) / L * xi * (L ^ 2 - xi ^ 2))
                    / (6 * E * second_moment * L)
               else (M * a / L * (L - xi) * (L ^ 2 - (L - xi) ^ 2))
                    / (6 * E * second_moment * L)) x,
        map (fun xi =>
               if Rleb xi a
               then M * (L - a) / L * xi / L
               else M * a / L * (L - xi) / L) x,
        map (fun _ => 0) x).
Proof.
  unfold _simply_supported_moment. cbv zeta.
  loop2. rewrite fill_zeros_like. reflexivity.
Qed.

Lemma cantilever_point_load_eq (P a : R) :
  _cantilever_point_load x L E second_moment P a
  = Ok (map (fun xi =>
               if Rleb xi a
               then (P * xi ^ 2 * (3 * a - xi)) / (6 * E * second_moment)
               else (P * a ^ 2 * (3 * xi - a)) / (6 * E * second_moment)) x,
        map (fun xi => if Rleb xi a then - P * (a - xi) else 0) x,
        map (fun xi => if Rleb xi a then - P else 0) x).
Proof.
  unfold _cantilever_point_load. cbv zeta.
  loop3. reflexivity.
Qed.

Lemma cantilever_moment_eq (M a : R) :
  _cantilever_moment x L E second_moment M a
  = Ok (map (fun xi =>
               if Rleb xi a
               then (M * xi ^ 2) / (2 * E * second_moment)
               else (M * xi * (2 * a - xi)) / (2 * E * second_moment)) x,
        map (fun xi => if Rleb xi a then - M else 0) x,
        map (fun _ => 0) x).
Proof.
  unfold _cantilever_moment. cbv zeta.
  loop2. rewrite fill_zeros_like. reflexivity.
Qed.

Lemma fixed_fixed_point_load_eq (P a : R) :
  _fixed_fixed_point_load x L E second_moment P a
  = Ok (map (fun xi =>
               if Rleb xi a
               then (P * (L - a) ^ 2 * (3 * a + (L - a)) / L ^ 3 * xi ^ 3 / 6
                     - P * a * (L - a) ^ 2 / L ^ 2 * xi ^ 2 / 2)
                    / (E * second_moment)
               else (P * (L - a) ^ 2 * (3 * a + (L - a)) / L ^ 3 * xi ^ 3 / 6
                     - P * a * (L - a) ^ 2 / L ^ 2 * xi ^ 2 / 2
                     - P * (xi - a) ^ 3 / 6)
                    / (E * second_moment)) x,
        map (fun xi =>
               if Rleb xi a
               then P * (L - a) ^ 2 * (3 * a + (L - a)) / L ^ 3 * xi
                    - P * a * (L - a) ^ 2 / L ^ 2
               else P * (L - a) ^ 2 * (3 * a + (L - a)) / L ^ 3 * xi
                    - P * a * (L - a) ^ 2 / L ^ 2 - P * (xi - a)) x,
        map (fun xi =>
               if Rleb xi a
               then P * (L - a) ^ 2 * (3 * a + (L - a)) / L ^ 3
               else P * (L - a) ^ 2 * (3 * a + (L - a)) / L ^ 3 - P) x).
Proof.
  unfold _fixed_fixed_point_load. cbv zeta.
  loop3. reflexivity.
Qed.

End SubSolvers.

End Stationwise.

(** ** NumPy facts *)
Module npFacts.

Lemma arange_S (n : nat) : np.arange (S n) = np.arange n ++ [INR n].
Proof. unfold np.arange. rewrite seq_S, map_app. reflexivity. Qed.

Lemma linspace_negative (start stop : R) (num : Z) :
  (num < 0)%Z ->
  np.linspace start stop num
  = Raise (ValueError
      ("Number of samples, " ++ str num ++ ", must be non-negative.")%string).
Proof.
  intros H. unfold np.linspace.
  destruct (Z.ltb_spec num 0); [ reflexivity | lia ].
Qed.

Lemma linspace_0 (start stop : R) : np.linspace start stop 0 = Ok [].
Proof. reflexivity. Qed.

Lemma linspace_1 (start stop : R) : np.linspace start stop 1 = Ok [start].
Proof.
  unfold np.linspace.
  change (Z.to_nat 1) with 1%nat. cbn [Z.ltb Z.compare Nat.sub Nat.ltb Nat.leb].
  unfold np.arange. cbn [seq map INR]. do 2 f_equal. ring.
Qed.

(** From two samples on, the samples are [start + k * step] with
    [step = (stop - start) / (n - 1)], the last one being [stop]. *)
Lemma linspace_ge2 (start stop : R) (n : nat) :
  (2 <= n)%nat ->
  np.linspace start stop (Z.of_nat n)
  = Ok (map (fun k => start + INR k * ((stop - start) / INR (n - 1)))
            (seq 0 n)).
Proof.
  intros Hn. unfold np.linspace.
  destruct (Z.ltb_spec (Z.of_nat n) 0); [ lia | ].
  rewrite Nat2Z.id.
  destruct (Nat.ltb_spec 0 (n - 1)); [ | lia ].
  destruct (Nat.ltb_spec 1 n); [ | lia ].
  f_equal. destruct n as [| m]; [ lia | ].
  replace (S m - 1)%nat with m by lia.
  unfold np.set_last. rewrite arange_S, map_app. cbn [map].
  rewrite removelast_last, seq_S, map_app. cbn [map Nat.add].
  unfold np.arange. rewrite map_map. f_equal.
  - apply map_ext. intros k. ring.
  - f_equal. assert (INR m <> 0) by (apply not_0_INR; lia). field. assumption.
Qed.

(** Whatever the count, a successful [linspace] has that many samples. *)
Lemma linspace_returns (start stop : R) (num : Z) :
  (0 <= num)%Z ->
  exists xs, np.linspace start stop num = Ok xs
             /\ length xs = Z.to_nat num.
Proof.
  intros H.
  destruct (Z.to_nat num) as [| [| m]] eqn:En.
  - assert (num = 0%Z) by lia. subst. exists []. split; reflexivity.
  - assert (num = 1%Z) by lia. subst. exists [start].
    split; [ apply linspace_1 | reflexivity ].
  - assert (Hn : num = Z.of_nat (S (S m))) by lia. rewrite Hn.
    eexists. split; [ apply linspace_ge2; lia | ].
    rewrite length_map, length_seq. reflexivity.
Qed.

Lemma linspace_raises_iff (start stop : R) (num : Z) :
  raises (np.linspace start stop num) <-> (num < 0)%Z.
Proof.
  split.
  - intros [e He]. destruct (Z.lt_ge_cases num 0) as [Hlt | Hge]; [ exact Hlt | ].
    destruct (linspace_returns start stop num Hge) as [xs [Hxs _]].
    congruence.
  - intros H. eexists. apply linspace_negative. exact H.
Qed.

(** [np.max] *)
Lemma fold_left_Rmax_ge (t : list R) (h : R) : h <= fold_left Rmax t h.
Proof.
  revert h. induction t as [| v t IH]; intros h; simpl.
  - lra.
  - eapply Rle_trans; [ apply (Rmax_l h v) | apply IH ].
Qed.

Lemma fold_left_Rmax_In (t : list R) (h v : R) :
  In v t -> v <= fold_left Rmax t h.
Proof.
  revert h. induction t as [| u t IH]; intros h Hin; simpl.
  - destruct Hin.
  - destruct Hin as [-> | Hin].
    + eapply Rle_trans; [ apply (Rmax_r h v) | apply fold_left_Rmax_ge ].
    + apply IH. exact Hin.
Qed.

Lemma fold_left_Rmax_le (t : list R) (h B : R) :
  h <= B -> (forall v, In v t -> v <= B) -> fold_left Rmax t h <= B.
Proof.
  revert h. induction t as [| u t IH]; intros h Hh Ht; simpl.
  - exact Hh.
  - apply IH.
    + apply Rmax_lub; [ exact Hh | apply Ht; left; reflexivity ].
    + intros v Hv. apply Ht. right. exact Hv.
Qed.

Lemma max_returns (arr : list R) :
  arr <> [] -> exists m, np.max arr = Ok m.
Proof.
  destruct arr as [| h t]; intros H; [ congruence | ].
  eexists. reflexivity.
Qed.

Lemma max_empty_raises : raises (np.max []).
Proof. eexists. reflexivity. Qed.

(** The maximum is an upper bound of the array ... *)
Lemma max_ge (arr : list R) (m v : R) :
  np.max arr = Ok m -> In v arr -> v <= m.
Proof.
  destruct arr as [| h t]; simpl; intros Hm Hin; [ destruct Hin | ].
  injection Hm as <-. destruct Hin as [-> | Hin].
  - apply fold_left_Rmax_ge.
  - apply fold_left_Rmax_In. exact Hin.
Qed.

(** ... and the least one. *)
Lemma max_le (arr : list R) (m B : R) :
  np.max arr = Ok m -> (forall v, In v arr -> v <= B) -> m <= B.
Proof.
  destruct arr as [| h t]; simpl; intros Hm Hall; [ discriminate | ].
  injection Hm as <-. apply fold_left_Rmax_le.
  - apply Hall. left. reflexivity.
  - intros v Hv. apply Hall. right. exact Hv.
Qed.

Lemma max_abs_zeros (xs : list R) :
  xs <> [] -> np.max (np.abs (map (fun _ => 0) xs)) = Ok 0.
Proof.
  destruct xs as [| h t]; intros H; [ congruence | ].
  cbn [map np.abs np.max]. f_equal.
  rewrite Rabs_R0. induction t as [| u t IH]; cbn [map fold_left].
  - reflexivity.
  - rewrite Rabs_R0. rewrite Rmax_left by lra. apply IH. discriminate.
Qed.

End npFacts.

(** ** The solver as a whole *)
Module BeamFacts.
Import BeamTheory BeamSpec Stationwise.

Lemma positive_check (L E second_moment : R) :
  0 < L -> 0 < E -> 0 < second_moment ->
  Rleb L 0 || Rleb E 0 || Rleb second_moment 0 = false.
Proof.
  intros HL HE HI.
  Rcmp_false (Rleb L 0). Rcmp_false (Rleb E 0).
  Rcmp_false (Rleb second_moment 0). reflexivity.
Qed.

(** Evaluate the comparisons of string literals. *)
Ltac string_tests :=
  repeat match goal with
         | |- context [String.eqb ?a ?b] =>
           let v := eval vm_compute in (String.eqb a b) in
           match v with
           | true => change (String.eqb a b) with true
           | false => change (String.eqb a b) with false
           end
         end.

(** Split on the comparisons of a string variable with the literals of
    the dispatch. *)
Ltac boundary_cases bc :=
  destruct (String.eqb bc "simply_supported") eqn:?;
  destruct (String.eqb bc "cantilever") eqn:?;
  destruct (String.eqb bc "fixed_fixed") eqn:?.

Ltac load_cases lt :=
  destruct (String.eqb lt "point") eqn:?;
  destruct (String.eqb lt "distributed") eqn:?;
  destruct (String.eqb lt "moment") eqn:?.

Ltac known_tests :=
  repeat match goal with
         | H : String.eqb _ _ = _ |- _ => rewrite !H; clear H
         end.

(** Run [euler_bernoulli] through validation and dispatch, down to the
    stationwise form. *)
Ltac pass_validation HL HE HI HM :=
  unfold euler_bernoulli, stationwise;
  rewrite (positive_check _ _ _ HL HE HI);
  rewrite (proj2 (Reqb_false _ 0) HM).

Ltac run_dispatch :=
  string_tests; cbn [andb is_None];
  match goal with
  | |- context [np.linspace ?s ?l ?n] =>
    destruct (np.linspace s l n) as [xs | e]; cbn [bind]; [ | reflexivity ]
  end;
  unfold assert_not_None; string_tests; cbv iota;
  try rewrite simply_supported_point_load_eq;
  try rewrite simply_supported_moment_eq;
  try rewrite cantilever_point_load_eq;
  try rewrite cantilever_moment_eq;
  try rewrite fixed_fixed_point_load_eq;
  unfold _simply_supported_distributed_load, _cantilever_distributed_load,
    _fixed_fixed_distributed_load, np.zeros_like;
  cbn [bind]; reflexivity.

Ltac run_solver HL HE HI HM := pass_validation HL HE HI HM; run_dispatch.

Section Configurations.

Variables (L E second_moment : R) (N : Z).
Hypotheses (HL : 0 < L) (HE : 0 < E) (HI : 0 < second_moment).

Lemma simply_supported_point (P a : R) :
  P <> 0 ->
  euler_bernoulli L E second_moment "point" P (Some a) "simply_supported" N
  = stationwise L N
      (fun xi =>
         if Rleb xi a
         then (P * (L - a) * xi * (L ^ 2 - (L - a) ^ 2 - xi ^ 2))
              / (6 * E * second_moment * L)
         else (P * a * (L - xi) * (2 * L * xi - xi ^ 2 - a ^ 2))
              / (6 * E * second_moment * L))
      (fun xi =>
         if Rleb xi a
         then P * (L - a) / L * xi
         else P * (L - a) / L * xi - P * (xi - a))
      (fun xi =>
         if Rltb xi a then P * (L - a) / L
         else if Rgtb xi a then - (P * a / L)
         else 0).
Proof. intros HM. run_solver HL HE HI HM. Qed.

Lemma simply_supported_distributed (w : R) (pos : option R) :
  w <> 0 ->
  euler_bernoulli L E second_moment "distributed" w pos "simply_supported" N
  = stationwise L N
      (fun xi => (w * xi * (L ^ 3 - 2 * L * xi ^ 2 + xi ^ 3))
                 / (24 * E * second_moment))
      (fun xi => (w * xi * (L - xi)) / 2)
      (fun xi => (w * L / 2) - w * xi).
Proof. intros HM. run_solver HL HE HI HM. Qed.

Lemma cantilever_point (P a : R) :
  P <> 0 ->
  euler_bernoulli L E second_moment "point" P (Some a) "cantilever" N
  = stationwise L N
      (fun xi =>
         if Rleb xi a
         then (P * xi ^ 2 * (3 * a - xi)) / (6 * E * second_moment)
         else (P * a ^ 2 * (3 * xi - a)) / (6 * E * second_moment))
      (fun xi => if Rleb xi a then - P * (a - xi) else 0)
      (fun xi => if Rleb xi a then - P else 0).
Proof. intros HM. run_solver HL HE HI HM. Qed.

Lemma fixed_fixed_point (P a : R) :
  P <> 0 ->
  exists fd fm,
    euler_bernoulli L E second_moment "point" P (Some a) "fixed_fixed" N
    = stationwise L N fd fm
        (fun xi =>
           if Rleb xi a
           then P * (L - a) ^ 2 * (3 * a + (L - a)) / L ^ 3
           else P * (L - a) ^ 2 * (3 * a + (L - a)) / L ^ 3 - P).
Proof. intros HM. do 2 eexists. run_solver HL HE HI HM. Qed.

Lemma fixed_fixed_moment (M a : R) :
  M <> 0 ->
  euler_bernoulli L E second_moment "moment" M (Some a) "fixed_fixed" N
  = stationwise L N (fun _ => 0) (fun _ => 0) (fun _ => 0).
Proof. intros HM. run_solver HL HE HI HM. Qed.

(** A moment load, whatever the boundary condition string. *)
Lemma moment_load (M a : R) (bc : string) :
  M <> 0 ->
  exists fd fm,
    euler_bernoulli L E second_moment "moment" M (Some a) bc N
    = stationwise L N fd fm (fun _ => 0).
Proof.
  intros HM.
  boundary_cases bc; do 2 eexists; pass_validation HL HE HI HM;
    known_tests; run_dispatch.
Qed.

(** Every call that passes validation is in stationwise form. *)
Lemma validated_stationwise (load_type : string) (M : R)
    (load_position : option R) (bc : string) :
  ~ invalid_parameters L E second_moment load_type M load_position ->
  exists fd fm fs,
    euler_bernoulli L E second_moment load_type M load_position bc N
    = stationwise L N fd fm fs.
Proof.
  intros Hvalid.
  assert (HM : M <> 0) by (intros ->; apply Hvalid; unfold invalid_parameters; tauto).
  destruct load_position as [a |].
  - boundary_cases bc; load_cases load_type; do 3 eexists;
      pass_validation HL HE HI HM; known_tests; run_dispatch.
  - assert (Hp : (load_type =? "point")%string = false).
    { apply String.eqb_neq. intros ->. apply Hvalid.
      unfold invalid_parameters. tauto. }
    assert (Hm : (load_type =? "moment")%string = false).
    { apply String.eqb_neq. intros ->. apply Hvalid.
      unfold invalid_parameters. tauto. }
    boundary_cases bc; destruct (String.eqb load_type "distributed") eqn:?;
      do 3 eexists; pass_validation HL HE HI HM; known_tests; run_dispatch.
Qed.

End Configurations.

End BeamFacts.

(** ** Results in stationwise form *)
Module StationwiseFacts.
Import BeamTheory BeamSpec BeamFacts.

Section Stationwise.

Variables (L : R) (N : Z) (fd fm fs : R -> R).

(** With at least one station the stationwise form returns; the record
    holds the stations, the three maps and their maxima. *)
Lemma stationwise_returns :
  (1 <= N)%Z ->
  exists r,
    stationwise L N fd fm fs = Ok r
    /\ np.linspace 0 L N = Ok (x r)
    /\ length (x r) = Z.to_nat N
    /\ deflection r = map fd (x r)
    /\ moment r = map fm (x r)
    /\ shear r = map fs (x r)
    /\ np.max (np.abs (deflection r)) = Ok (max_deflection r)
    /\ np.max (np.abs (moment r)) = Ok (max_moment r).
Proof.
  intros HN. unfold stationwise.
  destruct (npFacts.linspace_returns 0 L N) as [xs [Hxs Hlen]]; [ lia | ].
  rewrite Hxs. cbn [bind].
  assert (Hne : xs <> []) by (destruct xs; [ simpl in Hlen; lia | discriminate ]).
  destruct (npFacts.max_returns (np.abs (map fd xs))) as [md Hmd].
  { destruct xs; [ congruence | discriminate ]. }
  destruct (npFacts.max_returns (np.abs (map fm xs))) as [mm Hmm].
  { destruct xs; [ congruence | discriminate ]. }
  rewrite Hmd, Hmm. cbn [bind].
  eexists. split; [ reflexivity | ]. cbn.
  repeat split; assumption.
Qed.

(** Without stations it raises: a negative count in [np.linspace], an
    empty array in [np.max]. *)
Lemma stationwise_raises :
  (N <= 0)%Z -> exists msg, stationwise L N fd fm fs = Raise (ValueError msg).
Proof.
  intros HN. unfold stationwise.
  destruct (Z.eq_dec N 0) as [-> | Hneq].
  - rewrite npFacts.linspace_0. eexists. reflexivity.
  - rewrite npFacts.linspace_negative by lia. eexists. reflexivity.
Qed.

Lemma stationwise_raises_iff :
  raises (stationwise L N fd fm fs) <-> (N <= 0)%Z.
Proof.
  split.
  - intros [e He]. destruct (Z.le_gt_cases N 0) as [Hle | Hgt]; [ exact Hle | ].
    destruct stationwise_returns as [r [Hr _]]; [ lia | ]. congruence.
  - intros H. destruct (stationwise_raises H) as [msg Hmsg].
    eexists. exact Hmsg.
Qed.

End Stationwise.

(** The stations for a count of at least two. *)
Lemma stations_ge2 (L : R) (N : Z) (xs : list R) :
  (2 <= N)%Z ->
  np.linspace 0 L N = Ok xs ->
  xs = map (fun k => INR k * (L / (IZR N - 1))) (seq 0 (Z.to_nat N)).
Proof.
  intros HN Hxs.
  assert (Hn : N = Z.of_nat (Z.to_nat N)) by lia.
  rewrite Hn in Hxs. rewrite npFacts.linspace_ge2 in Hxs by lia.
  injection Hxs as <-. apply map_ext. intros k.
  rewrite minus_INR by lia.
  rewrite (INR_IZR_INZ (Z.to_nat N)), Z2Nat.id by lia.
  change (INR 1) with 1. replace (L - 0) with L by ring. ring.
Qed.

Lemma station_nth (L : R) (N : Z) (xs : list R) (i : nat) :
  (2 <= N)%Z ->
  np.linspace 0 L N = Ok xs ->
  (i < Z.to_nat N)%nat ->
  nth i xs 0 = INR i * (L / (IZR N - 1)).
Proof.
  intros HN Hxs Hi. rewrite (stations_ge2 L N xs HN Hxs).
  set (f := fun k : nat => INR k * (L / (IZR N - 1))).
  rewrite (nth_indep _ 0 (f 0%nat))
    by (rewrite length_map, length_seq; exact Hi).
  rewrite (map_nth f), seq_nth by exact Hi. reflexivity.
Qed.

End StationwiseFacts.

(** * The beam solver: validation, zero fill, lengths, stations *)

Import BeamTheory BeamSpec BeamFacts StationwiseFacts.

Lemma valid_not_invalid (L E second_moment : R) (load_type : string)
    (M : R) (load_position : option R) :
  0 < L -> 0 < E -> 0 < second_moment -> M <> 0 ->
  (load_type = "point" \/ load_type = "moment" -> load_position <> None) ->
  ~ invalid_parameters L E second_moment load_type M load_position.
Proof.
  intros HL HE HI HM Hpos [H | [H | [H | [H | [Hlt Hnone]]]]];
    try lra; try contradiction.
  exact (Hpos Hlt Hnone).
Qed.

Lemma not_invalid_valid (L E second_moment : R) (load_type : string)
    (M : R) (load_position : option R) :
  ~ invalid_parameters L E second_moment load_type M load_position ->
  0 < L /\ 0 < E /\ 0 < second_moment /\ M <> 0.
Proof.
  intros H. unfold invalid_parameters in H.
  repeat split; try (apply Rnot_le_lt; intros ?; apply H; tauto).
  intros ->. apply H. tauto.
Qed.

Lemma invalid_parameters_dec (L E second_moment : R) (load_type : string)
    (M : R) (load_position : option R) :
  {invalid_parameters L E second_moment load_type M load_position}
  + {~ invalid_parameters L E second_moment load_type M load_position}.
Proof.
  unfold invalid_parameters.
  destruct (Rle_dec L 0); [ left; tauto | ].
  destruct (Rle_dec E 0); [ left; tauto | ].
  destruct (Rle_dec second_moment 0); [ left; tauto | ].
  destruct (Req_dec_T M 0); [ left; tauto | ].
  destruct load_position as [a |].
  - right. intros [H | [H | [H | [H | [_ H]]]]];
      try contradiction; discriminate.
  - destruct (string_dec load_type "point"); [ left; tauto | ].
    destruct (string_dec load_type "moment"); [ left; tauto | ].
    right. tauto.
Qed.

(** The validation block: an input that it rejects raises one of its
    four messages, whatever the boundary condition and the station
    count; nothing has been computed by then. *)
Lemma validation_raises (L E second_moment : R) (load_type : string)
    (M : R) (load_position : option R) :
  invalid_parameters L E second_moment load_type M load_position ->
  exists msg,
    In msg validation_messages
    /\ forall bc N,
         euler_bernoulli L E second_moment load_type M load_position bc N
         = Raise (ValueError msg).
Proof.
  intros Hinv. unfold euler_bernoulli, validation_messages.
  destruct (Rleb L 0 || Rleb E 0 || Rleb second_moment 0) eqn:H1.
  { eexists. split; [ | reflexivity ]. simpl. tauto. }
  destruct (Reqb M 0) eqn:H2.
  { eexists. split; [ | reflexivity ]. simpl. tauto. }
  destruct ((load_type =? "point")%string && is_None load_position) eqn:H3.
  { eexists. split; [ | reflexivity ]. simpl. tauto. }
  destruct ((load_type =? "moment")%string && is_None load_position) eqn:H4.
  { eexists. split; [ | reflexivity ]. simpl. tauto. }
  exfalso.
  apply orb_false_elim in H1 as [H1 HI]. apply orb_false_elim in H1 as [HL HE].
  apply Rleb_false in HL, HE, HI. apply Reqb_false in H2.
  destruct Hinv as [H | [H | [H | [H | [[Hlt | Hlt] Hnone]]]]];
    try lra; try contradiction; subst; discriminate.
Qed.

(** The whole of the error behaviour. *)
Lemma raises_iff (L E second_moment : R) (load_type : string)
    (M : R) (load_position : option R) (bc : string) (N : Z) :
  raises (euler_bernoulli L E second_moment load_type M load_position bc N)
  <-> invalid_parameters L E second_moment load_type M load_position
      \/ (N <= 0)%Z.
Proof.
  destruct (invalid_parameters_dec L E second_moment load_type M load_position)
    as [Hinv | Hval].
  - split; [ tauto | intros _ ].
    destruct (validation_raises _ _ _ _ _ _ Hinv) as [msg [_ Hmsg]].
    eexists. apply Hmsg.
  - destruct (not_invalid_valid _ _ _ _ _ _ Hval) as [HL [HE [HI HM]]].
    destruct (validated_stationwise L E second_moment N HL HE HI
                load_type M load_position bc Hval) as [fd [fm [fs Heq]]].
    rewrite Heq, stationwise_raises_iff. tauto.
Qed.

(** C1: with boundary_conditions = fixed_fixed and load_type = moment,
    every valid call (positive length, modulus and second moment, a
    nonzero magnitude, a position supplied, at least one station)
    returns, the deflection, moment and shear arrays are the zero
    arrays of their initialisation, and both maxima are 0. *)
Theorem fixed_fixed_moment_zero_fill (L E second_moment M a : R) (N : Z) :
  0 < L -> 0 < E -> 0 < second_moment -> M <> 0 -> (1 <= N)%Z ->
  exists r,
    euler_bernoulli L E second_moment "moment" M (Some a) "fixed_fixed" N
    = Ok r
    /\ length (x r) = Z.to_nat N
    /\ deflection r = np.zeros_like (x r)
    /\ moment r = np.zeros_like (x r)
    /\ shear r = np.zeros_like (x r)
    /\ max_deflection r = 0
    /\ max_moment r = 0.
Proof.
  intros HL HE HI HM HN.
  rewrite (fixed_fixed_moment L E second_moment N HL HE HI M a HM).
  destruct (stationwise_returns L N (fun _ => 0) (fun _ => 0) (fun _ => 0) HN)
    as [r [Hr [Hx [Hlen [Hd [Hm [Hs [Hmd Hmm]]]]]]]].
  exists r. unfold np.zeros_like.
  assert (Hne : x r <> []) by (destruct (x r); [ simpl in Hlen; lia | discriminate ]).
  rewrite Hd, npFacts.max_abs_zeros in Hmd by exact Hne.
  rewrite Hm, npFacts.max_abs_zeros in Hmm by exact Hne.
  injection Hmd as Hmd. injection Hmm as Hmm.
  repeat split; auto.
Qed.

Lemma fixed_fixed_moment_zero_fill_witness :
  exists r,
    euler_bernoulli 4 200 1 "moment" 5 (Some 2) "fixed_fixed" 100 = Ok r
    /\ length (x r) = Z.to_nat 100
    /\ deflection r = np.zeros_like (x r)
    /\ moment r = np.zeros_like (x r)
    /\ shear r = np.zeros_like (x r)
    /\ max_deflection r = 0
    /\ max_moment r = 0.
Proof.
  apply (fixed_fixed_moment_zero_fill 4 200 1 5 2 100); try lra; lia.
Defined.


(** The only errors of the stationwise form are NumPy's two. *)
Lemma stationwise_error (L : R) (N : Z) (fd fm fs : R -> R) (e : exn) :
  stationwise L N fd fm fs = Raise e ->
  ((N < 0)%Z
   /\ e = ValueError
            ("Number of samples, " ++ str N ++ ", must be non-negative.")%string)
  \/ (N = 0%Z
      /\ e = ValueError
        "zero-size array to reduction operation maximum which has no identity").
Proof.
  unfold stationwise. intros He.
  destruct (Z.lt_ge_cases N 0) as [Hlt | Hge].
  - left. rewrite npFacts.linspace_negative in He by exact Hlt.
    cbn [bind] in He. split; congruence.
  - right. destruct (Z.eq_dec N 0) as [-> | Hne].
    + rewrite npFacts.linspace_0 in He. cbn in He. split; congruence.
    + exfalso.
      assert (Hraises : raises (stationwise L N fd fm fs))
        by (eexists; exact He).
      apply stationwise_raises_iff in Hraises. lia.
Qed.

Lemma numpy_messages_are_not_validation_messages (N : Z) :
  ~ In ("Number of samples, " ++ str N ++ ", must be non-negative.")%string
       validation_messages
  /\ ~ In "zero-size array to reduction operation maximum which has no identity"
          validation_messages.
Proof.
  split; unfold validation_messages; simpl; intuition discriminate.
Qed.


(** C8: with load_type = moment, every valid call with at least one
    station returns, and the shear array is 0 at every station; this
    holds for simply_supported, cantilever and fixed_fixed (and for any
    other boundary condition string, which leaves the zero arrays). *)
Theorem moment_load_zero_shear (L E second_moment M a : R) (bc : string)
    (N : Z) :
  0 < L -> 0 < E -> 0 < second_moment -> M <> 0 -> (1 <= N)%Z ->
  exists r,
    euler_bernoulli L E second_moment "moment" M (Some a) bc N = Ok r
    /\ length (shear r) = Z.to_nat N
    /\ Forall (fun v => v = 0) (shear r).
Proof.
  intros HL HE HI HM HN.
  destruct (moment_load L E second_moment N HL HE HI M a bc HM)
    as [fd [fm Heq]].
  rewrite Heq.
  destruct (stationwise_returns L N fd fm (fun _ => 0) HN)
    as [r [Hr [_ [Hlen [_ [_ [Hs _]]]]]]].
  exists r. repeat split.
  - exact Hr.
  - rewrite Hs, length_map. exact Hlen.
  - rewrite Hs. apply Forall_forall. intros v Hv.
    apply in_map_iff in Hv as [xi [Hxi _]]. symmetry. exact Hxi.
Qed.

Lemma moment_load_zero_shear_witness :
  (exists r,
     euler_bernoulli 4 200 1 "moment" 5 (Some 2) "simply_supported" 101
     = Ok r
     /\ length (shear r) = Z.to_nat 101
     /\ Forall (fun v => v = 0) (shear r))
  /\ (exists r,
        euler_bernoulli 4 200 1 "moment" 5 (Some 2) "cantilever" 101 = Ok r
        /\ length (shear r) = Z.to_nat 101
        /\ Forall (fun v => v = 0) (shear r))
  /\ (exists r,
        euler_bernoulli 4 200 1 "moment" 5 (Some 2) "fixed_fixed" 101 = Ok r
        /\ length (shear r) = Z.to_nat 101
        /\ Forall (fun v => v = 0) (shear r)).
Proof.
  repeat split;
    apply (moment_load_zero_shear 4 200 1 5 2); try lra; lia.
Defined.

(** C9: for every valid input (at least two stations), the call
    returns; x, deflection, moment and shear all have exactly
    num_points entries; x is uniformly spaced, [x_i = i * L / (N - 1)],
    starts at 0, ends at L and is non-decreasing. *)
Theorem station_count_and_spacing (L E second_moment : R)
    (load_type : string) (M : R) (load_position : option R) (bc : string)
    (N : Z) :
  0 < L -> 0 < E -> 0 < second_moment -> M <> 0 ->
  (load_type = "point" \/ load_type = "moment" -> load_position <> None) ->
  (2 <= N)%Z ->
  exists r,
    euler_bernoulli L E second_moment load_type M load_position bc N = Ok r
    /\ Z.of_nat (length (x r)) = N
    /\ Z.of_nat (length (deflection r)) = N
    /\ Z.of_nat (length (moment r)) = N
    /\ Z.of_nat (length (shear r)) = N
    /\ (forall i, (i < Z.to_nat N)%nat ->
          nth i (x r) 0 = INR i * (L / (IZR N - 1)))
    /\ nth 0 (x r) 0 = 0
    /\ nth (Z.to_nat N - 1) (x r) 0 = L
    /\ (forall i j, (i <= j)%nat -> (j < Z.to_nat N)%nat ->
          nth i (x r) 0 <= nth j (x r) 0).
Proof.
  intros HL HE HI HM Hpos HN.
  pose proof (valid_not_invalid L E second_moment load_type M load_position
                HL HE HI HM Hpos) as Hval.
  destruct (validated_stationwise L E second_moment N HL HE HI
              load_type M load_position bc Hval) as [fd [fm [fs Heq]]].
  rewrite Heq.
  destruct (stationwise_returns L N fd fm fs) as
    [r [Hr [Hx [Hlen [Hd [Hm [Hs _]]]]]]]; [ lia | ].
  assert (HNR : 2 <= IZR N) by (apply IZR_le; exact HN).
  assert (Hstep : 0 < L / (IZR N - 1)) by (apply Rdiv_lt_0_compat; lra).
  exists r. split; [ exact Hr | ].
  rewrite Hd, Hm, Hs, !length_map, Hlen.
  repeat split; try lia.
  - intros i Hi. apply station_nth; assumption.
  - rewrite (station_nth L N (x r) 0 HN Hx) by lia. simpl. ring.
  - rewrite (station_nth L N (x r) _ HN Hx) by lia.
    rewrite minus_INR by lia.
    rewrite (INR_IZR_INZ (Z.to_nat N)), Z2Nat.id by lia.
    change (INR 1) with 1. field. lra.
  - intros i j Hij Hj.
    rewrite !(station_nth L N (x r) _ HN Hx) by lia.
    apply Rmult_le_compat_r; [ lra | apply le_INR; exact Hij ].
Qed.

Lemma station_count_and_spacing_witness :
  exists r,
    euler_bernoulli 4 200 1 "point" 1000 (Some 2) "simply_supported" 101
    = Ok r
    /\ Z.of_nat (length (x r)) = 101%Z
    /\ Z.of_nat (length (deflection r)) = 101%Z
    /\ Z.of_nat (length (moment r)) = 101%Z
    /\ Z.of_nat (length (shear r)) = 101%Z
    /\ (forall i, (i < Z.to_nat 101)%nat ->
          nth i (x r) 0 = INR i * (4 / (IZR 101 - 1)))
    /\ nth 0 (x r) 0 = 0
    /\ nth (Z.to_nat 101 - 1) (x r) 0 = 4
    /\ (forall i j, (i <= j)%nat -> (j < Z.to_nat 101)%nat ->
          nth i (x r) 0 <= nth j (x r) 0).
Proof.
  apply (station_count_and_spacing 4 200 1 "point" 1000 (Some 2)
           "simply_supported" 101); try lra; try lia.
  intros _. discriminate.
Defined.

(** C10: num_points is never validated.  With num_points = 1 every
    input that passes the validation block returns, with the single
    station [x = [0]] and arrays of length one. *)
Theorem single_station_accepted (L E second_moment : R)
    (load_type : string) (M : R) (load_position : option R) (bc : string) :
  0 < L -> 0 < E -> 0 < second_moment -> M <> 0 ->
  (load_type = "point" \/ load_type = "moment" -> load_position <> None) ->
  exists r,
    euler_bernoulli L E second_moment load_type M load_position bc 1 = Ok r
    /\ x r = [0]
    /\ length (deflection r) = 1%nat
    /\ length (moment r) = 1%nat
    /\ length (shear r) = 1%nat.
Proof.
  intros HL HE HI HM Hpos.
  pose proof (valid_not_invalid L E second_moment load_type M load_position
                HL HE HI HM Hpos) as Hval.
  destruct (validated_stationwise L E second_moment 1 HL HE HI
              load_type M load_position bc Hval) as [fd [fm [fs Heq]]].
  rewrite Heq.
  destruct (stationwise_returns L 1 fd fm fs) as
    [r [Hr [Hx [Hlen [Hd [Hm [Hs _]]]]]]]; [ lia | ].
  rewrite npFacts.linspace_1 in Hx. injection Hx as Hx.
  exists r. rewrite Hd, Hm, Hs, !length_map, <- Hx.
  repeat split; auto.
Qed.

Lemma single_station_accepted_witness :
  exists r,
    euler_bernoulli 4 200 1 "distributed" 5000 None "cantilever" 1 = Ok r
    /\ x r = [0]
    /\ length (deflection r) = 1%nat
    /\ length (moment r) = 1%nat
    /\ length (shear r) = 1%nat.
Proof.
  apply (single_station_accepted 4 200 1 "distributed" 5000 None
           "cantilever"); try lra.
  intros [H | H]; discriminate.
Defined.

(** * Point loads: the shear branches *)

Lemma nth_map_lt (f : R -> R) (xs : list R) (i : nat) :
  (i < length xs)%nat -> nth i (map f xs) 0 = f (nth i xs 0).
Proof.
  intros Hi. rewrite (nth_indep _ 0 (f 0)) by (rewrite length_map; exact Hi).
  apply map_nth.
Qed.

(** C3: for a simply supported beam with point load P at a, the shear
    at a station x is P(L-a)/L when x < a, -P a/L when x > a and 0 when
    x = a.  The cantilever and fixed-fixed point-load solvers have two
    branches only, x <= a and x > a, so a station at x = a takes the
    value of the left branch. *)
Theorem point_load_shear_branches (L E second_moment P a : R) (N : Z) :
  0 < L -> 0 < E -> 0 < second_moment -> P <> 0 -> (1 <= N)%Z ->
  (exists r,
     euler_bernoulli L E second_moment "point" P (Some a)
       "simply_supported" N = Ok r
     /\ length (shear r) = length (x r)
     /\ forall i, (i < length (x r))%nat ->
          (nth i (x r) 0 < a -> nth i (shear r) 0 = P * (L - a) / L)
          /\ (a < nth i (x r) 0 -> nth i (shear r) 0 = - (P * a / L))
          /\ (nth i (x r) 0 = a -> nth i (shear r) 0 = 0))
  /\ (exists r,
        euler_bernoulli L E second_moment "point" P (Some a)
          "cantilever" N = Ok r
        /\ length (shear r) = length (x r)
        /\ forall i, (i < length (x r))%nat ->
             (nth i (x r) 0 <= a -> nth i (shear r) 0 = - P)
             /\ (a < nth i (x r) 0 -> nth i (shear r) 0 = 0))
  /\ (exists r,
        euler_bernoulli L E second_moment "point" P (Some a)
          "fixed_fixed" N = Ok r
        /\ length (shear r) = length (x r)
        /\ forall i, (i < length (x r))%nat ->
             (nth i (x r) 0 <= a ->
              nth i (shear r) 0
              = P * (L - a) ^ 2 * (3 * a + (L - a)) / L ^ 3)
             /\ (a < nth i (x r) 0 ->
                 nth i (shear r) 0
                 = P * (L - a) ^ 2 * (3 * a + (L - a)) / L ^ 3 - P)).
Proof.
  intros HL HE HI HP HN. repeat apply conj.
  - rewrite simply_supported_point by assumption.
    match goal with
    | |- context [stationwise L N ?fd ?fm ?fs] =>
      destruct (stationwise_returns L N fd fm fs HN)
        as [r [Hr [_ [_ [_ [_ [Hs _]]]]]]]
    end.
    exists r. split; [ exact Hr | ]. rewrite Hs, length_map.
    split; [ reflexivity | ]. intros i Hi. rewrite nth_map_lt by exact Hi.
    repeat split; intros Hx.
    + Rcmp_true (Rltb (nth i (x r) 0) a). reflexivity.
    + Rcmp_false (Rltb (nth i (x r) 0) a).
      Rcmp_true (Rgtb (nth i (x r) 0) a). reflexivity.
    + Rcmp_false (Rltb (nth i (x r) 0) a).
      Rcmp_false (Rgtb (nth i (x r) 0) a). reflexivity.
  - rewrite cantilever_point by assumption.
    match goal with
    | |- context [stationwise L N ?fd ?fm ?fs] =>
      destruct (stationwise_returns L N fd fm fs HN)
        as [r [Hr [_ [_ [_ [_ [Hs _]]]]]]]
    end.
    exists r. split; [ exact Hr | ]. rewrite Hs, length_map.
    split; [ reflexivity | ]. intros i Hi. rewrite nth_map_lt by exact Hi.
    split; intros Hx.
    + Rcmp_true (Rleb (nth i (x r) 0) a). reflexivity.
    + Rcmp_false (Rleb (nth i (x r) 0) a). reflexivity.
  - destruct (fixed_fixed_point L E second_moment N HL HE HI P a HP)
      as [fd [fm Heq]].
    rewrite Heq.
    match goal with
    | |- context [stationwise L N fd fm ?fs] =>
      destruct (stationwise_returns L N fd fm fs HN)
        as [r [Hr [_ [_ [_ [_ [Hs _]]]]]]]
    end.
    exists r. split; [ exact Hr | ]. rewrite Hs, length_map.
    split; [ reflexivity | ]. intros i Hi. rewrite nth_map_lt by exact Hi.
    split; intros Hx.
    + Rcmp_true (Rleb (nth i (x r) 0) a). reflexivity.
    + Rcmp_false (Rleb (nth i (x r) 0) a). reflexivity.
Qed.

Lemma point_load_shear_branches_witness :
  (exists r,
     euler_bernoulli 2 1 1 "point" 10 (Some 1) "simply_supported" 3 = Ok r
     /\ length (shear r) = length (x r)
     /\ forall i, (i < length (x r))%nat ->
          (nth i (x r) 0 < 1 -> nth i (shear r) 0 = 10 * (2 - 1) / 2)
          /\ (1 < nth i (x r) 0 -> nth i (shear r) 0 = - (10 * 1 / 2))
          /\ (nth i (x r) 0 = 1 -> nth i (shear r) 0 = 0))
  /\ (exists r,
        euler_bernoulli 2 1 1 "point" 10 (Some 1) "cantilever" 3 = Ok r
        /\ length (shear r) = length (x r)
        /\ forall i, (i < length (x r))%nat ->
             (nth i (x r) 0 <= 1 -> nth i (shear r) 0 = - 10)
             /\ (1 < nth i (x r) 0 -> nth i (shear r) 0 = 0))
  /\ (exists r,
        euler_bernoulli 2 1 1 "point" 10 (Some 1) "fixed_fixed" 3 = Ok r
        /\ length (shear r) = length (x r)
        /\ forall i, (i < length (x r))%nat ->
             (nth i (x r) 0 <= 1 ->
              nth i (shear r) 0
              = 10 * (2 - 1) ^ 2 * (3 * 1 + (2 - 1)) / 2 ^ 3)
             /\ (1 < nth i (x r) 0 ->
                 nth i (shear r) 0
                 = 10 * (2 - 1) ^ 2 * (3 * 1 + (2 - 1)) / 2 ^ 3 - 10)).
Proof.
  apply (point_load_shear_branches 2 1 1 10 1 3); try lra; lia.
Defined.

(** The three stations of a beam of length 2 with the load on the middle
    one: the simply supported shear is 0 there, the cantilever shear is
    the left value. *)
Example shear_on_the_load_station :
  (exists r,
     euler_bernoulli 2 1 1 "point" 10 (Some 1) "simply_supported" 3 = Ok r
     /\ x r = [0; 1; 2] /\ shear r = [5; 0; -5])
  /\ (exists r,
        euler_bernoulli 2 1 1 "point" 10 (Some 1) "cantilever" 3 = Ok r
        /\ x r = [0; 1; 2] /\ shear r = [-10; -10; 0]).
Proof.
  assert (Hx : np.linspace 0 2 3 = Ok [0; 1; 2]).
  { change 3%Z with (Z.of_nat 3). rewrite npFacts.linspace_ge2 by lia.
    cbn [seq map Nat.sub INR]. f_equal.
    repeat (apply f_equal2; [ field | ]). reflexivity. }
  split.
  - rewrite simply_supported_point by lra.
    unfold stationwise. rewrite Hx. cbn [bind map np.abs np.max].
    eexists. split; [ reflexivity | ]. cbn. split; [ reflexivity | ].
    Rcmp_true (Rltb 0 1). Rcmp_false (Rltb 1 1). Rcmp_false (Rgtb 1 1).
    Rcmp_false (Rltb 2 1). Rcmp_true (Rgtb 2 1).
    repeat f_equal; field.
  - rewrite cantilever_point by lra.
    unfold stationwise. rewrite Hx. cbn [bind map np.abs np.max].
    eexists. split; [ reflexivity | ]. cbn. split; [ reflexivity | ].
    Rcmp_true (Rleb 0 1). Rcmp_true (Rleb 1 1). Rcmp_false (Rleb 2 1).
    reflexivity.
Qed.

(** * Uniform load on a simply supported beam *)

(** The polynomials of the moment and of the deflection, on [0, L] and
    near the middle of the span. *)
Lemma product_bounds (x L : R) :
  0 <= x <= L -> 0 <= x * (L - x) <= L ^ 2 / 4.
Proof. intros [H0 H1]. split.
  - apply Rmult_le_pos; lra.
  - pose proof (pow2_ge_0 (x - L / 2)). nra.
Qed.

Lemma Rabs_between (v b : R) : Rabs v <= b -> - b <= v <= b.
Proof. unfold Rabs. destruct (Rcase_abs v); lra. Qed.

Lemma Rabs_within (v B : R) : 0.99 * B < v -> v <= B -> Rabs (v - B) < 0.01 * B.
Proof. intros. unfold Rabs. destruct (Rcase_abs (v - B)); lra. Qed.

Lemma product_near_middle (x L : R) :
  0 < L -> Rabs (x - L / 2) <= L / 22 ->
  30 / 121 * L ^ 2 <= x * (L - x).
Proof.
  intros HL Hx. apply Rabs_between in Hx.
  assert (Hd : (x - L / 2) * (x - L / 2) <= (L / 22) * (L / 22)) by nra.
  nra.
Qed.

Lemma quartic_bounds (x L : R) :
  0 <= x <= L ->
  0 <= x * (L ^ 3 - 2 * L * x ^ 2 + x ^ 3) <= 5 * L ^ 4 / 16.
Proof.
  intros [H0 H1].
  replace (x * (L ^ 3 - 2 * L * x ^ 2 + x ^ 3))
    with (x * (L - x) * (L ^ 2 + x * (L - x))) by ring.
  assert (Hp := product_bounds x L (conj H0 H1)).
  destruct Hp as [Hp0 Hp1].
  assert (HL2 : 0 <= L ^ 2) by (apply pow2_ge_0).
  set (p := x * (L - x)) in *. set (q := L ^ 2) in *.
  replace (5 * L ^ 4 / 16) with (q / 4 * (q + q / 4)) by (unfold q; field).
  split.
  - apply Rmult_le_pos; [ exact Hp0 | nra ].
  - apply Rmult_le_compat; nra.
Qed.

Lemma quartic_near_middle (x L : R) :
  0 < L -> Rabs (x - L / 2) <= L / 22 ->
  0.99 * (5 * L ^ 4 / 16) < x * (L ^ 3 - 2 * L * x ^ 2 + x ^ 3).
Proof.
  intros HL Hx.
  pose proof (product_near_middle x L HL Hx) as Hp.
  replace (x * (L ^ 3 - 2 * L * x ^ 2 + x ^ 3))
    with (x * (L - x) * (L ^ 2 + x * (L - x))) by ring.
  assert (HL2 : 0 < L ^ 2) by (apply pow_lt; exact HL).
  set (p := x * (L - x)) in *. set (q := L ^ 2) in *.
  replace (5 * L ^ 4 / 16) with (q / 4 * (q + q / 4)) by (unfold q; field).
  assert (H1 : 30 / 121 * q * (q + 30 / 121 * q) <= p * (q + p)).
  { apply Rmult_le_compat; nra. }
  nra.
Qed.

(** With at least eleven stations, or with an odd number of stations
    (one of them is then the middle of the span), a station is within
    L/22 of the middle. *)
Lemma station_near_middle (L : R) (N : Z) :
  0 < L ->
  (11 <= N)%Z \/ ((3 <= N)%Z /\ Z.odd N = true) ->
  exists k,
    (k < Z.to_nat N)%nat
    /\ Rabs (INR k * (L / (IZR N - 1)) - L / 2) <= L / 22.
Proof.
  intros HL HN.
  assert (H3 : (3 <= N)%Z) by lia.
  set (n := (Z.to_nat N - 1)%nat).
  assert (Hs : IZR N - 1 = INR n).
  { unfold n. rewrite minus_INR by lia.
    rewrite (INR_IZR_INZ (Z.to_nat N)), Z2Nat.id by lia. reflexivity. }
  exists (n / 2)%nat. split.
  { assert ((n / 2 <= n)%nat) by (apply Nat.Div0.div_le_upper_bound; lia).
    unfold n in *. lia. }
  rewrite Hs.
  pose proof (Nat.div_mod_eq n 2) as Hdiv.
  pose proof (Nat.mod_upper_bound n 2 ltac:(lia)) as Hmod.
  assert (Hn : (10 <= n)%nat \/ (n mod 2 = 0)%nat).
  { destruct HN as [H11 | [_ Hodd]]; [ left; unfold n; lia | right ].
    apply Z.odd_spec in Hodd as [m Hm].
    assert (Hnm : n = (2 * Z.to_nat m)%nat) by (unfold n; lia).
    rewrite Hnm, Nat.mul_comm. apply Nat.Div0.mod_mul. }
  destruct (n mod 2)%nat as [| [| m]] eqn:Hm; [ | | lia ].
  - assert (Hq : INR n = 2 * INR (n / 2)).
    { rewrite Hdiv at 1. rewrite Nat.add_0_r, mult_INR. reflexivity. }
    assert (0 < INR n) by (apply lt_0_INR; unfold n; lia).
    replace (INR (n / 2) * (L / INR n) - L / 2) with 0
      by (rewrite Hq; field; lra).
    rewrite Rabs_R0. lra.
  - assert (Hq : INR n = 2 * INR (n / 2) + 1).
    { rewrite Hdiv at 1. rewrite plus_INR, mult_INR. reflexivity. }
    assert (H11 : 11 <= INR n).
    { replace 11 with (INR 11) by (simpl; lra). apply le_INR. lia. }
    replace (INR (n / 2) * (L / INR n) - L / 2) with (- (L / (2 * INR n))).
    2:{ replace (INR (n / 2)) with ((INR n - 1) / 2) by lra. field. lra. }
    rewrite Rabs_Ropp, Rabs_pos_eq.
    + unfold Rdiv. apply Rmult_le_compat_l; [ lra | ].
      apply Rinv_le_contravar; lra.
    + apply Rlt_le, Rdiv_lt_0_compat; lra.
Qed.

Lemma Rabs_scaled (w p : R) : 0 <= p -> Rabs (w * p) = Rabs w * p.
Proof. intros Hp. rewrite Rabs_mult, (Rabs_pos_eq p Hp). reflexivity. Qed.

(** The maximum of [|w * g(x) / c|] over stations on which [g] stays in
    [0, Bp] and somewhere exceeds 99% of [Bp]. *)
Lemma max_abs_within (fm g : R -> R) (w c Bp : R) (xs : list R) (m : R) :
  (forall xi, fm xi = w * (g xi / c)) ->
  0 < c -> w <> 0 ->
  np.max (np.abs (map fm xs)) = Ok m ->
  (forall xi, In xi xs -> 0 <= g xi <= Bp) ->
  (exists xi, In xi xs /\ 0.99 * Bp < g xi) ->
  Rabs (m - Rabs w * (Bp / c)) < 0.01 * (Rabs w * (Bp / c)).
Proof.
  intros Hfm Hc Hw Hmax Hall [xk [Hin Hk]].
  assert (HW : 0 < Rabs w) by (apply Rabs_pos_lt; exact Hw).
  assert (Hinv : 0 < / c) by (apply Rinv_0_lt_compat; exact Hc).
  assert (Habs : forall xi, In xi xs -> Rabs (fm xi) = Rabs w * (g xi / c)).
  { intros xi Hxi. rewrite Hfm. apply Rabs_scaled.
    destruct (Hall xi Hxi) as [H0 _]. unfold Rdiv.
    apply Rmult_le_pos; lra. }
  apply Rabs_within.
  - apply Rlt_le_trans with (Rabs (fm xk)).
    + rewrite (Habs xk Hin). unfold Rdiv.
      rewrite <- !Rmult_assoc, (Rmult_comm 0.99), !Rmult_assoc.
      apply Rmult_lt_compat_l; [ exact HW | ].
      rewrite <- Rmult_assoc. apply Rmult_lt_compat_r; assumption.
    + apply (npFacts.max_ge _ _ _ Hmax). unfold np.abs.
      apply in_map, in_map. exact Hin.
  - apply (npFacts.max_le _ _ _ Hmax). intros v Hv. unfold np.abs in Hv.
    apply in_map_iff in Hv as [u [<- Hu]].
    apply in_map_iff in Hu as [xi [<- Hxi]].
    rewrite (Habs xi Hxi). destruct (Hall xi Hxi) as [_ H1].
    apply Rmult_le_compat_l; [ lra | ]. unfold Rdiv.
    apply Rmult_le_compat_r; lra.
Qed.

(** The stations lie on the span. *)
Lemma stations_on_span (L : R) (N : Z) (xs : list R) :
  0 < L -> (2 <= N)%Z -> np.linspace 0 L N = Ok xs ->
  forall xi, In xi xs -> 0 <= xi <= L.
Proof.
  intros HL HN Hxs xi Hxi.
  rewrite (stations_ge2 L N xs HN Hxs) in Hxi.
  apply in_map_iff in Hxi as [k [<- Hk]]. apply in_seq in Hk.
  assert (HNR : 2 <= IZR N) by (apply IZR_le; exact HN).
  assert (Hk0 : 0 <= INR k) by apply pos_INR.
  assert (Hk1 : INR k <= IZR N - 1).
  { replace (IZR N - 1) with (INR (Z.to_nat N - 1)).
    - apply le_INR. lia.
    - rewrite minus_INR by lia.
      rewrite (INR_IZR_INZ (Z.to_nat N)), Z2Nat.id by lia. reflexivity. }
  assert (Hstep : 0 < L / (IZR N - 1)) by (apply Rdiv_lt_0_compat; lra).
  split.
  - apply Rmult_le_pos; lra.
  - replace L with ((IZR N - 1) * (L / (IZR N - 1))) at 2 by (field; lra).
    apply Rmult_le_compat_r; lra.
Qed.

(** C7, as the spec states it, fails.  With two stations both lie on
    the supports, every moment and deflection is 0 and so are the
    maxima, far from w L^2 / 8 and 5 w L^4 / (384 E I).  With a negative
    intensity the maxima, being maxima of absolute values, are positive
    while w L^2 / 8 is negative. *)
Lemma maxima_of_uniform_load_off :
  (exists r,
     euler_bernoulli 1 1 1 "distributed" 1 None "simply_supported" 2 = Ok r
     /\ x r = [0; 1]
     /\ max_moment r = 0
     /\ max_deflection r = 0
     /\ ~ Rabs (max_moment r - 1 * 1 ^ 2 / 8) <= 0.01 * (1 * 1 ^ 2 / 8)
     /\ ~ Rabs (max_deflection r - 5 * 1 * 1 ^ 4 / (384 * 1 * 1))
          <= 0.01 * (5 * 1 * 1 ^ 4 / (384 * 1 * 1)))
  /\ (exists r,
        euler_bernoulli 1 1 1 "distributed" (-8) None "simply_supported" 3
        = Ok r
        /\ max_moment r = 1
        /\ ~ Rabs (max_moment r - (-8) * 1 ^ 2 / 8)
             <= 0.01 * Rabs ((-8) * 1 ^ 2 / 8)).
Proof.
  split.
  - assert (Hx : np.linspace 0 1 2 = Ok [0; 1]).
    { change 2%Z with (Z.of_nat 2). rewrite npFacts.linspace_ge2 by lia.
      cbn [seq map Nat.sub INR]. f_equal.
      repeat (apply f_equal2; [ field | ]). reflexivity. }
    rewrite simply_supported_distributed by lra.
    unfold stationwise. rewrite Hx.
    cbn [bind map np.abs np.max fold_left].
    eexists. split; [ reflexivity | ].
    cbn [x max_moment max_deflection].
    replace (1 * 0 * (1 - 0) / 2) with 0 by field.
    replace (1 * 1 * (1 - 1) / 2) with 0 by field.
    replace (1 * 0 * (1 ^ 3 - 2 * 1 * 0 ^ 2 + 0 ^ 3) / (24 * 1 * 1))
      with 0 by field.
    replace (1 * 1 * (1 ^ 3 - 2 * 1 * 1 ^ 2 + 1 ^ 3) / (24 * 1 * 1))
      with 0 by field.
    rewrite Rabs_R0, Rmax_left by lra.
    repeat split; try reflexivity.
    + unfold Rabs. destruct (Rcase_abs _); lra.
    + unfold Rabs. destruct (Rcase_abs _); lra.
  - assert (Hx : np.linspace 0 1 3 = Ok [0; 1 / 2; 1]).
    { change 3%Z with (Z.of_nat 3). rewrite npFacts.linspace_ge2 by lia.
      cbn [seq map Nat.sub INR]. f_equal.
      repeat (apply f_equal2; [ field | ]). reflexivity. }
    rewrite simply_supported_distributed by lra.
    unfold stationwise. rewrite Hx.
    cbn [bind map np.abs np.max fold_left].
    eexists. split; [ reflexivity | ].
    cbn [max_moment].
    replace (-8 * 0 * (1 - 0) / 2) with 0 by field.
    replace (-8 * (1 / 2) * (1 - 1 / 2) / 2) with (-1) by field.
    replace (-8 * 1 * (1 - 1) / 2) with 0 by field.
    assert (Hm1 : Rabs (-1) = 1)
      by (unfold Rabs; destruct (Rcase_abs _); lra).
    rewrite Rabs_R0, Hm1.
    rewrite (Rmax_right 0 1), (Rmax_left 1 0) by lra.
    split; [ reflexivity | ].
    replace (1 - -8 * 1 ^ 2 / 8) with 2 by field.
    replace (-8 * 1 ^ 2 / 8) with (-1) by field.
    rewrite Hm1.
    unfold Rabs. destruct (Rcase_abs _); lra.
Qed.

(** C7, amended: for a simply supported beam under a uniform load w,
    every valid call with at least one station returns and, at every
    station x, deflection = w x (L^3 - 2 L x^2 + x^3) / (24 E I),
    moment = w x (L - x) / 2 and shear = w L / 2 - w x.  With at least
    eleven stations, or with an odd number of at least three stations,
    max_moment is within 1% of |w| L^2 / 8 and max_deflection within 1%
    of 5 |w| L^4 / (384 E I). *)
Theorem uniform_load_simply_supported (L E second_moment w : R)
    (load_position : option R) (N : Z) :
  0 < L -> 0 < E -> 0 < second_moment -> w <> 0 -> (1 <= N)%Z ->
  exists r,
    euler_bernoulli L E second_moment "distributed" w load_position
      "simply_supported" N = Ok r
    /\ length (x r) = Z.to_nat N
    /\ deflection r
       = map (fun xi => w * xi * (L ^ 3 - 2 * L * xi ^ 2 + xi ^ 3)
                        / (24 * E * second_moment)) (x r)
    /\ moment r = map (fun xi => w * xi * (L - xi) / 2) (x r)
    /\ shear r = map (fun xi => w * L / 2 - w * xi) (x r)
    /\ ((11 <= N)%Z \/ ((3 <= N)%Z /\ Z.odd N = true) ->
        Rabs (max_moment r - Rabs w * L ^ 2 / 8)
        < 0.01 * (Rabs w * L ^ 2 / 8)
        /\ Rabs (max_deflection r
                 - 5 * Rabs w * L ^ 4 / (384 * E * second_moment))
           < 0.01 * (5 * Rabs w * L ^ 4 / (384 * E * second_moment))).
Proof.
  intros HL HE HI Hw HN.
  rewrite simply_supported_distributed by assumption.
  match goal with
  | |- context [stationwise L N ?fd ?fm ?fs] =>
    destruct (stationwise_returns L N fd fm fs HN)
      as [r [Hr [Hx [Hlen [Hd [Hm [Hs [Hmd Hmm]]]]]]]]
  end.
  exists r. repeat (split; [ assumption | ]).
  intros H11.
  assert (H2 : (2 <= N)%Z) by lia.
  pose proof (stations_on_span L N (x r) HL H2 Hx) as Hspan.
  destruct (station_near_middle L N HL H11) as [k [Hk Hmid]].
  rewrite <- (station_nth L N (x r) k H2 Hx Hk) in Hmid.
  assert (Hin : In (nth k (x r) 0) (x r)) by (apply nth_In; lia).
  split.
  - replace (Rabs w * L ^ 2 / 8) with (Rabs w * (L ^ 2 / 4 / 2)) by field.
    rewrite Hm in Hmm.
    apply (max_abs_within (fun xi => w * xi * (L - xi) / 2)
             (fun xi => xi * (L - xi)) w 2 (L ^ 2 / 4)
             (x r) (max_moment r)); try assumption; try lra.
    + intros xi. field.
    + intros xi Hxi. apply product_bounds, Hspan, Hxi.
    + exists (nth k (x r) 0). split; [ exact Hin | ].
      pose proof (product_near_middle _ L HL Hmid).
      assert (0 < L ^ 2) by (apply pow_lt; exact HL). lra.
  - assert (HEI : 0 < 24 * E * second_moment).
    { apply Rmult_lt_0_compat; [ lra | exact HI ]. }
    replace (5 * Rabs w * L ^ 4 / (384 * E * second_moment))
      with (Rabs w * (5 * L ^ 4 / 16 / (24 * E * second_moment)))
      by (field; lra).
    rewrite Hd in Hmd.
    apply (max_abs_within
             (fun xi => w * xi * (L ^ 3 - 2 * L * xi ^ 2 + xi ^ 3)
                        / (24 * E * second_moment))
             (fun xi => xi * (L ^ 3 - 2 * L * xi ^ 2 + xi ^ 3)) w
             (24 * E * second_moment) (5 * L ^ 4 / 16)
             (x r) (max_deflection r)); try assumption.
    + intros xi. field. lra.
    + intros xi Hxi. apply quartic_bounds, Hspan, Hxi.
    + exists (nth k (x r) 0). split; [ exact Hin | ].
      apply quartic_near_middle; assumption.
Qed.

Lemma uniform_load_simply_supported_witness :
  exists r,
    euler_bernoulli 4 200 1 "distributed" 5000 None "simply_supported" 100
    = Ok r
    /\ length (x r) = Z.to_nat 100
    /\ deflection r
       = map (fun xi => 5000 * xi * (4 ^ 3 - 2 * 4 * xi ^ 2 + xi ^ 3)
                        / (24 * 200 * 1)) (x r)
    /\ moment r = map (fun xi => 5000 * xi * (4 - xi) / 2) (x r)
    /\ shear r = map (fun xi => 5000 * 4 / 2 - 5000 * xi) (x r)
    /\ Rabs (max_moment r - Rabs 5000 * 4 ^ 2 / 8)
       < 0.01 * (Rabs 5000 * 4 ^ 2 / 8)
    /\ Rabs (max_deflection r - 5 * Rabs 5000 * 4 ^ 4 / (384 * 200 * 1))
       < 0.01 * (5 * Rabs 5000 * 4 ^ 4 / (384 * 200 * 1)).
Proof.
  destruct (uniform_load_simply_supported 4 200 1 5000 None 100)
    as [r [Hr [Hlen [Hd [Hm [Hs Hmax]]]]]]; try lra; try lia.
  exists r. repeat (split; [ assumption | ]).
  apply Hmax. left. lia.
Defined.

(** * Euler buckling *)
Module ColumnFacts.
Import ColumnTheory ColumnSpec.

Lemma K_factors_lookup :
  getitem K_factors "pinned" = Ok 1.0
  /\ getitem K_factors "fixed" = Ok 0.5
  /\ getitem K_factors "fixed_free" = Ok 2.0
  /\ getitem K_factors "fixed_pinned" = Ok 0.7.
Proof. repeat split; reflexivity. Qed.

(** A known end condition has a positive factor. *)
Lemma K_factors_known (end_conditions : string) :
  In end_conditions end_condition_names ->
  exists K, getitem K_factors end_conditions = Ok K /\ 0 < K.
Proof.
  intros [<- | [<- | [<- | [<- | []]]]]; eexists;
    (split; [ reflexivity | lra ]).
Qed.

(** An unknown one is a [KeyError]. *)
Lemma K_factors_unknown (end_conditions : string) :
  ~ In end_conditions end_condition_names ->
  getitem K_factors end_conditions = Raise (KeyError end_conditions).
Proof.
  intros Hnot. unfold K_factors, getitem.
  repeat match goal with
         | |- context [String.eqb ?k end_conditions] =>
           destruct (String.eqb_spec k end_conditions) as [Heq | _];
           [ exfalso; apply Hnot; rewrite <- Heq; simpl; tauto | ]
         end.
  reflexivity.
Qed.

(** The four checks pass on positive arguments. *)
Lemma validated (L E second_moment : R) (end_conditions : string)
    (safety_factor : R) :
  0 < L -> 0 < E -> 0 < second_moment -> 0 < safety_factor ->
  euler_buckling L E second_moment end_conditions safety_factor
  = (K <- getitem K_factors end_conditions ;;
     Ok {| critical_load :=
             PI ^ 2 * E * second_moment / (K * L) ^ 2;
           design_load :=
             PI ^ 2 * E * second_moment / (K * L) ^ 2 / safety_factor;
           critical_stress :=
             PI ^ 2 * E * second_moment / (K * L) ^ 2 / sqrt second_moment;
           effective_length := K * L;
           K_factor := K;
           slenderness_ratio :=
             K * L / sqrt (second_moment / sqrt second_moment);
           radius_of_gyration := sqrt (second_moment / sqrt second_moment);
           recommendation :=
             recommend
               (K * L / sqrt (second_moment / sqrt second_moment)) |}).
Proof.
  intros HL HE HI HS. unfold euler_buckling.
  Rcmp_false (Rleb L 0). Rcmp_false (Rleb E 0).
  Rcmp_false (Rleb second_moment 0). Rcmp_false (Rleb safety_factor 0).
  reflexivity.
Qed.

(** The bands of [recommend]. *)
Lemma recommend_bands (s : R) :
  (recommend s = short_column <-> s < 50)
  /\ (recommend s = intermediate_column <-> 50 <= s < 100)
  /\ (recommend s = long_column <-> 100 <= s < 200)
  /\ (recommend s = very_slender <-> 200 <= s).
Proof.
  unfold recommend, Rltb.
  destruct (Rlt_dec s 50); [ | destruct (Rlt_dec s 100);
    [ | destruct (Rlt_dec s 200) ] ];
    repeat split; intros; try reflexivity; try lra;
    unfold short_column, intermediate_column, long_column, very_slender in *;
    discriminate.
Qed.

End ColumnFacts.

Import ColumnTheory ColumnSpec ColumnFacts.

(** C4: for every valid column (positive length, modulus, second moment
    and safety factor, one of the four end conditions) the call
    returns; K is pinned -> 1.0, fixed -> 0.5, fixed_free -> 2.0,
    fixed_pinned -> 0.7; effective_length = K L; critical_load =
    pi^2 E I / effective_length^2; design_load = critical_load /
    safety_factor; the result carries all four. *)
Theorem euler_buckling_formulas (L E second_moment : R)
    (end_conditions : string) (safety_factor : R) :
  0 < L -> 0 < E -> 0 < second_moment -> 0 < safety_factor ->
  In end_conditions end_condition_names ->
  exists r,
    euler_buckling L E second_moment end_conditions safety_factor = Ok r
    /\ (end_conditions = "pinned" -> K_factor r = 1.0)
    /\ (end_conditions = "fixed" -> K_factor r = 0.5)
    /\ (end_conditions = "fixed_free" -> K_factor r = 2.0)
    /\ (end_conditions = "fixed_pinned" -> K_factor r = 0.7)
    /\ effective_length r = K_factor r * L
    /\ 0 < effective_length r
    /\ critical_load r
       = PI ^ 2 * E * second_moment / effective_length r ^ 2
    /\ design_load r = critical_load r / safety_factor.
Proof.
  intros HL HE HI HS Hin.
  rewrite validated by assumption.
  destruct Hin as [<- | [<- | [<- | [<- | []]]]];
    (eexists; split; [ reflexivity | ]; cbn;
     repeat split; try reflexivity; try discriminate; lra).
Qed.

Lemma euler_buckling_formulas_witness :
  exists r,
    euler_buckling 4 200 1 "fixed_pinned" 1.5 = Ok r
    /\ ("fixed_pinned" = "pinned" -> K_factor r = 1.0)
    /\ ("fixed_pinned" = "fixed" -> K_factor r = 0.5)
    /\ ("fixed_pinned" = "fixed_free" -> K_factor r = 2.0)
    /\ ("fixed_pinned" = "fixed_pinned" -> K_factor r = 0.7)
    /\ effective_length r = K_factor r * 4
    /\ 0 < effective_length r
    /\ critical_load r = PI ^ 2 * 200 * 1 / effective_length r ^ 2
    /\ design_load r = critical_load r / 1.5.
Proof.
  apply (euler_buckling_formulas 4 200 1 "fixed_pinned" 1.5); try lra.
  simpl. tauto.
Defined.

(** C5: the recommendation is one of four fixed strings, chosen by the
    slenderness ratio s of the column, s = K L / sqrt (I / sqrt I) with
    K the factor of the end condition (positive on a valid column):
    short for s < 50, intermediate for 50 <= s < 100, long (Euler
    applicable) for 100 <= s < 200, very slender for 200 <= s; 50, 100
    and 200 belong to the higher band. *)
Theorem recommendation_bands (L E second_moment : R)
    (end_conditions : string) (safety_factor : R) :
  0 < L -> 0 < E -> 0 < second_moment -> 0 < safety_factor ->
  In end_conditions end_condition_names ->
  exists r K,
    euler_buckling L E second_moment end_conditions safety_factor = Ok r
    /\ getitem K_factors end_conditions = Ok K
    /\ slenderness_ratio r
       = K * L / sqrt (second_moment / sqrt second_moment)
    /\ 0 < slenderness_ratio r
    /\ In (recommendation r)
         [short_column; intermediate_column; long_column; very_slender]
    /\ (recommendation r = short_column <-> slenderness_ratio r < 50)
    /\ (recommendation r = intermediate_column
        <-> 50 <= slenderness_ratio r < 100)
    /\ (recommendation r = long_column
        <-> 100 <= slenderness_ratio r < 200)
    /\ (recommendation r = very_slender <-> 200 <= slenderness_ratio r).
Proof.
  intros HL HE HI HS Hin.
  rewrite validated by assumption.
  destruct (K_factors_known end_conditions Hin) as [K [HK HKpos]].
  rewrite HK. cbn [bind].
  eexists. exists K. split; [ reflexivity | ]. split; [ reflexivity | ].
  cbn [slenderness_ratio recommendation].
  split; [ reflexivity | ].
  set (s := K * L / sqrt (second_moment / sqrt second_moment)).
  assert (Hs : 0 < s).
  { unfold s. apply Rdiv_lt_0_compat.
    - apply Rmult_lt_0_compat; assumption.
    - apply sqrt_lt_R0, Rdiv_lt_0_compat; [ | apply sqrt_lt_R0 ]; assumption. }
  split; [ exact Hs | ].
  split; [ | apply recommend_bands ].
  unfold recommend.
  destruct (Rltb s 50); [ | destruct (Rltb s 100); [ | destruct (Rltb s 200) ] ];
    simpl; tauto.
Qed.

(** Pinned columns of second moment 1 and length 50, 100 and 200 have
    slenderness ratio exactly 50, 100 and 200 and fall into the higher
    band. *)
Lemma recommendation_bands_witness :
  (exists r, euler_buckling 50 200 1 "pinned" 1 = Ok r
             /\ slenderness_ratio r = 50
             /\ recommendation r = intermediate_column)
  /\ (exists r, euler_buckling 100 200 1 "pinned" 1 = Ok r
                /\ slenderness_ratio r = 100
                /\ recommendation r = long_column)
  /\ (exists r, euler_buckling 200 200 1 "pinned" 1 = Ok r
                /\ slenderness_ratio r = 200
                /\ recommendation r = very_slender).
Proof.
  assert (Hr : sqrt (1 / sqrt 1) = 1).
  { rewrite sqrt_1. replace (1 / 1) with 1 by field. apply sqrt_1. }
  assert (Hpin : In "pinned" end_condition_names) by (simpl; tauto).
  assert (HK : forall K, getitem K_factors "pinned" = Ok K -> K = 1).
  { intros K H. rewrite (proj1 K_factors_lookup) in H.
    injection H as <-. lra. }
  repeat apply conj.
  - destruct (recommendation_bands 50 200 1 "pinned" 1)
      as [r [K [Hrun [HKr [Hs [_ [_ [_ [Hb _]]]]]]]]]; try lra; try exact Hpin.
    rewrite (HK K HKr), Hr in Hs.
    replace (1 * 50 / 1) with 50 in Hs by field.
    exists r. repeat split; [ exact Hrun | exact Hs | ].
    apply Hb. rewrite Hs. lra.
  - destruct (recommendation_bands 100 200 1 "pinned" 1)
      as [r [K [Hrun [HKr [Hs [_ [_ [_ [_ [Hb _]]]]]]]]]];
      try lra; try exact Hpin.
    rewrite (HK K HKr), Hr in Hs.
    replace (1 * 100 / 1) with 100 in Hs by field.
    exists r. repeat split; [ exact Hrun | exact Hs | ].
    apply Hb. rewrite Hs. lra.
  - destruct (recommendation_bands 200 200 1 "pinned" 1)
      as [r [K [Hrun [HKr [Hs [_ [_ [_ [_ [_ Hb]]]]]]]]]];
      try lra; try exact Hpin.
    rewrite (HK K HKr), Hr in Hs.
    replace (1 * 200 / 1) with 200 in Hs by field.
    exists r. repeat split; [ exact Hrun | exact Hs | ].
    apply Hb. rewrite Hs. lra.
Defined.

(** Columns whose slenderness ratio is exactly 50, 100 and 200 (second
    moment 1, pinned ends) fall into the higher band. *)
Example slenderness_on_a_threshold :
  (exists r, euler_buckling 50 200 1 "pinned" 1 = Ok r
             /\ slenderness_ratio r = 50
             /\ recommendation r = intermediate_column)
  /\ (exists r, euler_buckling 100 200 1 "pinned" 1 = Ok r
                /\ slenderness_ratio r = 100
                /\ recommendation r = long_column)
  /\ (exists r, euler_buckling 200 200 1 "pinned" 1 = Ok r
                /\ slenderness_ratio r = 200
                /\ recommendation r = very_slender).
Proof.
  assert (Hr : sqrt (1 / sqrt 1) = 1).
  { rewrite sqrt_1. replace (1 / 1) with 1 by field. apply sqrt_1. }
  repeat apply conj; rewrite validated by lra;
    rewrite (proj1 K_factors_lookup); cbn [bind];
    (eexists; split; [ reflexivity | ]);
    cbn [slenderness_ratio recommendation]; rewrite Hr.
  - replace (1.0 * 50 / 1) with 50 by lra.
    split; [ reflexivity | apply (recommend_bands 50); lra ].
  - replace (1.0 * 100 / 1) with 100 by lra.
    split; [ reflexivity | apply (recommend_bands 100); lra ].
  - replace (1.0 * 200 / 1) with 200 by lra.
    split; [ reflexivity | apply (recommend_bands 200); lra ].
Qed.

(** C6: length, E, second_moment and safety_factor are checked one
    after the other, each check with its own message naming the field;
    the four messages differ.  The checks come first: a rejected call
    is a raise, with no result, whatever the end condition (even an
    unknown one, whose [KeyError] only shows once the four checks have
    passed), and a call that passes them raises no [ValueError]. *)
Theorem euler_buckling_validation (L E second_moment : R)
    (end_conditions : string) (safety_factor : R) :
  (L <= 0 ->
   euler_buckling L E second_moment end_conditions safety_factor
   = Raise (ValueError "Length must be positive"))
  /\ (0 < L -> E <= 0 ->
      euler_buckling L E second_moment end_conditions safety_factor
      = Raise (ValueError "Elastic modulus must be positive"))
  /\ (0 < L -> 0 < E -> second_moment <= 0 ->
      euler_buckling L E second_moment end_conditions safety_factor
      = Raise (ValueError "Second moment of area must be positive"))
  /\ (0 < L -> 0 < E -> 0 < second_moment -> safety_factor <= 0 ->
      euler_buckling L E second_moment end_conditions safety_factor
      = Raise (ValueError "Safety factor must be positive"))
  /\ NoDup [ "Length must be positive";
             "Elastic modulus must be positive";
             "Second moment of area must be positive";
             "Safety factor must be positive" ]
  /\ (0 < L -> 0 < E -> 0 < second_moment -> 0 < safety_factor ->
      (In end_conditions end_condition_names ->
       returns (euler_buckling L E second_moment end_conditions
                  safety_factor))
      /\ (~ In end_conditions end_condition_names ->
          euler_buckling L E second_moment end_conditions safety_factor
          = Raise (KeyError end_conditions))).
Proof.
  repeat apply conj.
  - intros HL. unfold euler_buckling. Rcmp_true (Rleb L 0). reflexivity.
  - intros HL HE. unfold euler_buckling.
    Rcmp_false (Rleb L 0). Rcmp_true (Rleb E 0). reflexivity.
  - intros HL HE HI. unfold euler_buckling.
    Rcmp_false (Rleb L 0). Rcmp_false (Rleb E 0).
    Rcmp_true (Rleb second_moment 0). reflexivity.
  - intros HL HE HI HS. unfold euler_buckling.
    Rcmp_false (Rleb L 0). Rcmp_false (Rleb E 0).
    Rcmp_false (Rleb second_moment 0). Rcmp_true (Rleb safety_factor 0).
    reflexivity.
  - repeat constructor; simpl; intuition discriminate.
  - intros HL HE HI HS. rewrite validated by assumption. split.
    + intros Hin.
      destruct (K_factors_known end_conditions Hin) as [K [HK _]].
      rewrite HK. eexists. reflexivity.
    + intros Hnot. rewrite K_factors_unknown by exact Hnot. reflexivity.
Qed.

(** Each check on its own, at concrete columns. *)
Example one_violation_at_a_time :
  euler_buckling (-1) 200 1 "pinned" 1
  = Raise (ValueError "Length must be positive")
  /\ euler_buckling 4 0 1 "pinned" 1
     = Raise (ValueError "Elastic modulus must be positive")
  /\ euler_buckling 4 200 (-1) "pinned" 1
     = Raise (ValueError "Second moment of area must be positive")
  /\ euler_buckling 4 200 1 "pinned" 0
     = Raise (ValueError "Safety factor must be positive")
  /\ euler_buckling (-1) 200 1 "no such end" 1
     = Raise (ValueError "Length must be positive")
  /\ euler_buckling 4 200 1 "no such end" 1
     = Raise (KeyError "no such end").
Proof.
  unfold euler_buckling.
  Rcmp_true (Rleb (-1) 0). Rcmp_false (Rleb 4 0). Rcmp_true (Rleb 0 0).
  Rcmp_false (Rleb 200 0). Rcmp_false (Rleb 1 0).
  repeat apply conj; reflexivity.
Qed.

(** * Further properties of the beam solver *)

Import ClosedForm.

(** Every call that passes validation returns the maps of the closed
    form that the dispatch selects. *)
Lemma solver_closed_form (L E second_moment : R) (load_type : string)
    (M : R) (load_position : option R) (bc : string) (N : Z) :
  ~ invalid_parameters L E second_moment load_type M load_position ->
  euler_bernoulli L E second_moment load_type M load_position bc N
  = stationwise L N
      (at_deflection
         (closed_form bc load_type L E second_moment M load_position))
      (at_moment
         (closed_form bc load_type L E second_moment M load_position))
      (at_shear
         (closed_form bc load_type L E second_moment M load_position)).
Proof.
  intros Hvalid.
  destruct (not_invalid_valid _ _ _ _ _ _ Hvalid) as [HL [HE [HI HM]]].
  destruct load_position as [a |].
  - boundary_cases bc; load_cases load_type; unfold closed_form, position;
      pass_validation HL HE HI HM; known_tests; run_dispatch.
  - assert (Hp : (load_type =? "point")%string = false).
    { apply String.eqb_neq. intros ->. apply Hvalid.
      unfold invalid_parameters. tauto. }
    assert (Hm : (load_type =? "moment")%string = false).
    { apply String.eqb_neq. intros ->. apply Hvalid.
      unfold invalid_parameters. tauto. }
    boundary_cases bc; destruct (String.eqb load_type "distributed") eqn:?;
      unfold closed_form, position;
      pass_validation HL HE HI HM; known_tests; run_dispatch.
Qed.

(** A valid call with at least one station, with everything that the
    returned record holds. *)
Lemma solver_returns (L E second_moment : R) (load_type : string)
    (M : R) (load_position : option R) (bc : string) (N : Z) :
  ~ invalid_parameters L E second_moment load_type M load_position ->
  (1 <= N)%Z ->
  exists r,
    euler_bernoulli L E second_moment load_type M load_position bc N = Ok r
    /\ np.linspace 0 L N = Ok (x r)
    /\ length (x r) = Z.to_nat N
    /\ deflection r
       = map (at_deflection
                (closed_form bc load_type L E second_moment M load_position))
             (x r)
    /\ moment r
       = map (at_moment
                (closed_form bc load_type L E second_moment M load_position))
             (x r)
    /\ shear r
       = map (at_shear
                (closed_form bc load_type L E second_moment M load_position))
             (x r)
    /\ np.max (np.abs (deflection r)) = Ok (max_deflection r)
    /\ np.max (np.abs (moment r)) = Ok (max_moment r).
Proof.
  intros Hvalid HN. rewrite solver_closed_form by exact Hvalid.
  apply stationwise_returns. exact HN.
Qed.

(** The maximum of an array is one of its entries. *)
Lemma fold_left_Rmax_In_or (t : list R) (h : R) :
  fold_left Rmax t h = h \/ In (fold_left Rmax t h) t.
Proof.
  revert h. induction t as [| u t IH]; intros h; simpl.
  - left. reflexivity.
  - destruct (IH (Rmax h u)) as [Heq | Hin]; [ | right; right; exact Hin ].
    rewrite Heq. unfold Rmax. destruct (Rle_dec h u); [ right; left | left ];
      reflexivity.
Qed.

Lemma max_In (arr : list R) (m : R) : np.max arr = Ok m -> In m arr.
Proof.
  destruct arr as [| h t]; simpl; intros Hm; [ discriminate | ].
  injection Hm as <-.
  destruct (fold_left_Rmax_In_or t h) as [-> | Hin]; [ left | right ]; auto.
Qed.

(** The maximum of absolute values, characterised. *)
Lemma max_abs_unique (arr : list R) (m B : R) :
  np.max (np.abs arr) = Ok m ->
  (forall v, In v arr -> Rabs v <= B) ->
  (exists v, In v arr /\ Rabs v = B) ->
  m = B.
Proof.
  intros Hm Hall [v [Hin Hv]]. apply Rle_antisym.
  - apply (npFacts.max_le _ _ _ Hm). intros u Hu. unfold np.abs in Hu.
    apply in_map_iff in Hu as [w [<- Hw]]. apply Hall, Hw.
  - rewrite <- Hv. apply (npFacts.max_ge _ _ _ Hm). unfold np.abs.
    apply in_map. exact Hin.
Qed.

Lemma max_abs_le (arr : list R) (m B : R) :
  np.max (np.abs arr) = Ok m ->
  (forall v, In v arr -> Rabs v <= B) ->
  m <= B.
Proof.
  intros Hm Hall. apply (npFacts.max_le _ _ _ Hm). intros u Hu.
  unfold np.abs in Hu. apply in_map_iff in Hu as [w [<- Hw]]. apply Hall, Hw.
Qed.

(** Scaling an array scales the maximum of its absolute values. *)
Lemma max_abs_scale (k : R) (arr : list R) (m1 m2 : R) :
  np.max (np.abs arr) = Ok m1 ->
  np.max (np.abs (map (Rmult k) arr)) = Ok m2 ->
  m2 = Rabs k * m1.
Proof.
  intros H1 H2.
  pose proof (max_In _ _ H1) as Hin. unfold np.abs in Hin.
  apply in_map_iff in Hin as [v [Hv Hvin]].
  apply (max_abs_unique (map (Rmult k) arr) m2 (Rabs k * m1) H2).
  - intros u Hu. apply in_map_iff in Hu as [w [<- Hw]].
    rewrite Rabs_mult. apply Rmult_le_compat_l; [ apply Rabs_pos | ].
    apply (npFacts.max_ge _ _ _ H1). unfold np.abs. apply in_map. exact Hw.
  - exists (k * v). split; [ apply in_map; exact Hvin | ].
    rewrite Rabs_mult, Hv. reflexivity.
Qed.

(** The first and the last station. *)
Lemma first_station (L : R) (N : Z) (xs : list R) :
  (2 <= N)%Z -> np.linspace 0 L N = Ok xs -> nth 0 xs 0 = 0.
Proof.
  intros HN Hxs. rewrite (station_nth L N xs 0 HN Hxs) by lia. simpl. ring.
Qed.

Lemma last_station (L : R) (N : Z) (xs : list R) :
  (2 <= N)%Z -> np.linspace 0 L N = Ok xs ->
  nth (Z.to_nat N - 1) xs 0 = L.
Proof.
  intros HN Hxs. rewrite (station_nth L N xs _ HN Hxs) by lia.
  assert (HNR : 2 <= IZR N) by (apply IZR_le; exact HN).
  rewrite minus_INR by lia.
  rewrite (INR_IZR_INZ (Z.to_nat N)), Z2Nat.id by lia.
  change (INR 1) with 1. field. lra.
Qed.

(** X1: whatever its arguments, [euler_bernoulli] never raises an
    [AssertionError], an [IndexError] or a [KeyError]: the asserts on
    the position never fire (a point or moment load without position
    has been rejected before), and no loop writes outside its array. *)
Theorem asserts_never_fire (L E second_moment : R) (load_type : string)
    (M : R) (load_position : option R) (bc : string) (N : Z) :
  euler_bernoulli L E second_moment load_type M load_position bc N
  <> Raise AssertionError
  /\ (forall msg,
        euler_bernoulli L E second_moment load_type M load_position bc N
        <> Raise (IndexError msg))
  /\ (forall key,
        euler_bernoulli L E second_moment load_type M load_position bc N
        <> Raise (KeyError key)).
Proof.
  assert (Hvalue : forall e,
            euler_bernoulli L E second_moment load_type M load_position bc N
            = Raise e ->
            exists msg, e = ValueError msg).
  { intros e He.
    destruct (invalid_parameters_dec L E second_moment load_type M
                load_position) as [Hinv | Hval].
    - destruct (validation_raises _ _ _ _ _ _ Hinv) as [msg [_ Hmsg]].
      rewrite Hmsg in He. injection He as <-. exists msg. reflexivity.
    - rewrite solver_closed_form in He by exact Hval.
      destruct (stationwise_error _ _ _ _ _ _ He) as [[_ ->] | [_ ->]];
        eexists; reflexivity. }
  repeat split.
  - intros He. destruct (Hvalue _ He) as [msg Hmsg]. discriminate Hmsg.
  - intros msg He. destruct (Hvalue _ He) as [msg' Hmsg]. discriminate Hmsg.
  - intros key He. destruct (Hvalue _ He) as [msg Hmsg]. discriminate Hmsg.
Qed.

Lemma closed_form_unimplemented (bc load_type : string)
    (L E second_moment M : R) (load_position : option R) :
  implemented bc load_type = false ->
  closed_form bc load_type L E second_moment M load_position = zero_fields.
Proof.
  unfold implemented, closed_form.
  destruct (String.eqb bc "simply_supported");
    destruct (String.eqb bc "cantilever");
    destruct (String.eqb bc "fixed_fixed");
    destruct (String.eqb load_type "point");
    destruct (String.eqb load_type "distributed");
    destruct (String.eqb load_type "moment");
    cbn; intros H; try discriminate H; reflexivity.
Qed.

(** X2: a combination that the dispatch does not implement (an unknown
    boundary condition, an unknown load type, fixed_fixed with a
    moment) is not an error: the call returns the zero arrays and zero
    maxima. *)
Theorem unimplemented_combination_zero_fill (L E second_moment : R)
    (load_type : string) (M : R) (load_position : option R) (bc : string)
    (N : Z) :
  0 < L -> 0 < E -> 0 < second_moment -> M <> 0 ->
  (load_type = "point" \/ load_type = "moment" -> load_position <> None) ->
  implemented bc load_type = false ->
  (1 <= N)%Z ->
  exists r,
    euler_bernoulli L E second_moment load_type M load_position bc N = Ok r
    /\ length (x r) = Z.to_nat N
    /\ deflection r = np.zeros_like (x r)
    /\ moment r = np.zeros_like (x r)
    /\ shear r = np.zeros_like (x r)
    /\ max_deflection r = 0
    /\ max_moment r = 0.
Proof.
  intros HL HE HI HM Hpos Himpl HN.
  pose proof (valid_not_invalid L E second_moment load_type M load_position
                HL HE HI HM Hpos) as Hval.
  destruct (solver_returns L E second_moment load_type M load_position bc N
              Hval HN) as [r [Hr [Hx [Hlen [Hd [Hm [Hs [Hmd Hmm]]]]]]]].
  rewrite closed_form_unimplemented in Hd, Hm, Hs by exact Himpl.
  cbn [zero_fields at_deflection at_moment at_shear] in Hd, Hm, Hs.
  assert (Hne : x r <> [])
    by (destruct (x r); [ simpl in Hlen; lia | discriminate ]).
  rewrite Hd, npFacts.max_abs_zeros in Hmd by exact Hne.
  rewrite Hm, npFacts.max_abs_zeros in Hmm by exact Hne.
  injection Hmd as Hmd. injection Hmm as Hmm.
  exists r. unfold np.zeros_like. repeat split; auto.
Qed.

Lemma unimplemented_combination_zero_fill_witness :
  exists r,
    euler_bernoulli 4 200 1 "point" 1000 (Some 2) "pinned" 100 = Ok r
    /\ length (x r) = Z.to_nat 100
    /\ deflection r = np.zeros_like (x r)
    /\ moment r = np.zeros_like (x r)
    /\ shear r = np.zeros_like (x r)
    /\ max_deflection r = 0
    /\ max_moment r = 0.
Proof.
  apply (unimplemented_combination_zero_fill 4 200 1 "point" 1000 (Some 2)
           "pinned" 100); try lra; try lia; try reflexivity.
  intros _. discriminate.
Defined.

(** X3: max_deflection and max_moment are the largest absolute values
    of their arrays: non-negative, an upper bound of every entry, and
    attained by one of them. *)
Theorem maxima_are_attained_bounds (L E second_moment : R)
    (load_type : string) (M : R) (load_position : option R) (bc : string)
    (N : Z) :
  0 < L -> 0 < E -> 0 < second_moment -> M <> 0 ->
  (load_type = "point" \/ load_type = "moment" -> load_position <> None) ->
  (1 <= N)%Z ->
  exists r,
    euler_bernoulli L E second_moment load_type M load_position bc N = Ok r
    /\ 0 <= max_deflection r
    /\ (forall v, In v (deflection r) -> Rabs v <= max_deflection r)
    /\ (exists v, In v (deflection r) /\ max_deflection r = Rabs v)
    /\ 0 <= max_moment r
    /\ (forall v, In v (moment r) -> Rabs v <= max_moment r)
    /\ (exists v, In v (moment r) /\ max_moment r = Rabs v).
Proof.
  intros HL HE HI HM Hpos HN.
  pose proof (valid_not_invalid L E second_moment load_type M load_position
                HL HE HI HM Hpos) as Hval.
  destruct (solver_returns L E second_moment load_type M load_position bc N
              Hval HN) as [r [Hr [_ [_ [_ [_ [_ [Hmd Hmm]]]]]]]].
  assert (Hatt : forall arr m, np.max (np.abs arr) = Ok m ->
            0 <= m
            /\ (forall v, In v arr -> Rabs v <= m)
            /\ (exists v, In v arr /\ m = Rabs v)).
  { intros arr m Hmax.
    assert (Hex : exists v, In v arr /\ m = Rabs v).
    { pose proof (max_In _ _ Hmax) as Hin. unfold np.abs in Hin.
      apply in_map_iff in Hin as [v [Hv Hvin]]. exists v. auto. }
    repeat split; [ | | exact Hex ].
    - destruct Hex as [v [_ ->]]. apply Rabs_pos.
    - intros v Hv. apply (npFacts.max_ge _ _ _ Hmax). unfold np.abs.
      apply in_map. exact Hv. }
  destruct (Hatt _ _ Hmd) as [Hd0 [Hd1 Hd2]].
  destruct (Hatt _ _ Hmm) as [Hm0 [Hm1 Hm2]].
  exists r. repeat split; assumption.
Qed.

Lemma maxima_are_attained_bounds_witness :
  exists r,
    euler_bernoulli 4 200 1 "point" 1000 (Some 2) "fixed_fixed" 50 = Ok r
    /\ 0 <= max_deflection r
    /\ (forall v, In v (deflection r) -> Rabs v <= max_deflection r)
    /\ (exists v, In v (deflection r) /\ max_deflection r = Rabs v)
    /\ 0 <= max_moment r
    /\ (forall v, In v (moment r) -> Rabs v <= max_moment r)
    /\ (exists v, In v (moment r) /\ max_moment r = Rabs v).
Proof.
  apply (maxima_are_attained_bounds 4 200 1 "point" 1000 (Some 2)
           "fixed_fixed" 50); try lra; try lia.
  intros _. discriminate.
Defined.

(** Unfold the closed form of a call down to its station functions. *)
Ltac closed_form_cases bc load_type :=
  unfold closed_form, position;
  destruct (String.eqb bc "simply_supported");
  destruct (String.eqb bc "cantilever");
  destruct (String.eqb bc "fixed_fixed");
  destruct (String.eqb load_type "point");
  destruct (String.eqb load_type "distributed");
  destruct (String.eqb load_type "moment");
  unfold zero_fields, simply_supported_point, simply_supported_distributed,
    simply_supported_moment, cantilever_point, cantilever_distributed,
    cantilever_moment, fixed_fixed_point, fixed_fixed_distributed;
  cbn [at_deflection at_moment at_shear].

Ltac branch_cases :=
  repeat match goal with
         | |- context [if ?c then _ else _] => destruct c
         end.

Ltac field_positive :=
  first [ ring | field; repeat split; lra ].

(** The closed forms are linear in the load magnitude. *)
Lemma closed_form_linear (bc load_type : string) (L E second_moment M : R)
    (load_position : option R) (k xi : R) :
  0 < L -> 0 < E -> 0 < second_moment ->
  at_deflection
    (closed_form bc load_type L E second_moment (k * M) load_position) xi
  = k * at_deflection
          (closed_form bc load_type L E second_moment M load_position) xi
  /\ at_moment
       (closed_form bc load_type L E second_moment (k * M) load_position) xi
     = k * at_moment
             (closed_form bc load_type L E second_moment M load_position) xi
  /\ at_shear
       (closed_form bc load_type L E second_moment (k * M) load_position) xi
     = k * at_shear
             (closed_form bc load_type L E second_moment M load_position) xi.
Proof.
  intros HL HE HI.
  closed_form_cases bc load_type; repeat split; branch_cases; field_positive.
Qed.



(** In the closed forms the stiffness E I only divides the deflection. *)
Lemma closed_form_stiffness (bc load_type : string) (L E I E' I' M : R)
    (load_position : option R) (xi : R) :
  0 < L -> 0 < E -> 0 < I -> 0 < E' -> 0 < I' ->
  at_deflection (closed_form bc load_type L E' I' M load_position) xi
  = E * I / (E' * I')
    * at_deflection (closed_form bc load_type L E I M load_position) xi
  /\ at_moment (closed_form bc load_type L E' I' M load_position) xi
     = at_moment (closed_form bc load_type L E I M load_position) xi
  /\ at_shear (closed_form bc load_type L E' I' M load_position) xi
     = at_shear (closed_form bc load_type L E I M load_position) xi.
Proof.
  intros HL HE HI HE' HI'.
  closed_form_cases bc load_type; repeat split; branch_cases;
    first [ reflexivity | field_positive ].
Qed.



(** X6: a load that is neither a point load nor a moment ignores
    load_position: the call gives the same outcome, result or error,
    whatever position is passed, or none. *)
Theorem position_ignored_by_other_loads (L E second_moment : R)
    (load_type : string) (M : R) (p p' : option R) (bc : string) (N : Z) :
  load_type <> "point" -> load_type <> "moment" ->
  euler_bernoulli L E second_moment load_type M p bc N
  = euler_bernoulli L E second_moment load_type M p' bc N.
Proof.
  intros Hp Hm. unfold euler_bernoulli.
  destruct (String.eqb_spec load_type "point") as [Heq | _];
    [ contradiction | ].
  destruct (String.eqb_spec load_type "moment") as [Heq | _];
    [ contradiction | ].
  cbn [andb]. reflexivity.
Qed.

Lemma position_ignored_by_other_loads_witness :
  euler_bernoulli 4 200 1 "distributed" 5000 None "cantilever" 100
  = euler_bernoulli 4 200 1 "distributed" 5000 (Some 7) "cantilever" 100.
Proof.
  apply (position_ignored_by_other_loads 4 200 1 "distributed" 5000 None
           (Some 7) "cantilever" 100); discriminate.
Defined.

(** * Boundary values *)

(** Decide the branch of a closed form at a station from the context. *)
Ltac decide_branches :=
  repeat match goal with
         | |- context [Rleb ?u ?v] =>
           let Hc := fresh "Hc" in
           destruct (Rleb u v) eqn:Hc;
           [ apply Rleb_true in Hc | apply Rleb_false in Hc ]
         | |- context [Rltb ?u ?v] =>
           let Hc := fresh "Hc" in
           destruct (Rltb u v) eqn:Hc;
           [ apply Rltb_true in Hc | apply Rltb_false in Hc ]
         end.

Ltac load_type_cases load_type :=
  destruct (String.eqb load_type "point");
  destruct (String.eqb load_type "distributed");
  destruct (String.eqb load_type "moment");
  unfold zero_fields, simply_supported_point, simply_supported_distributed,
    simply_supported_moment, cantilever_point, cantilever_distributed,
    cantilever_moment, fixed_fixed_point, fixed_fixed_distributed;
  cbn [at_deflection at_moment at_shear].

Ltac at_the_end a L :=
  decide_branches; try (exfalso; lra);
  try (assert (a = L) by lra; subst a);
  field_positive.

Section Ends.

Variables (L E second_moment M : R) (load_type : string)
  (load_position : option R).
Hypotheses (HL : 0 < L) (HE : 0 < E) (HI : 0 < second_moment).
Hypothesis Hspan : 0 <= position load_position <= L.

Lemma simply_supported_closed_form_ends :
  let cf := closed_form "simply_supported" load_type L E second_moment M
              load_position in
  at_deflection cf 0 = 0 /\ at_deflection cf L = 0
  /\ at_moment cf 0 = 0 /\ at_moment cf L = 0.
Proof.
  unfold closed_form. string_tests. cbv iota.
  revert Hspan. generalize (position load_position). intros a Ha.
  load_type_cases load_type; repeat split; at_the_end a L.
Qed.

Lemma fixed_fixed_closed_form_ends :
  let cf := closed_form "fixed_fixed" load_type L E second_moment M
              load_position in
  at_deflection cf 0 = 0 /\ at_deflection cf L = 0.
Proof.
  unfold closed_form. string_tests. cbv iota.
  revert Hspan. generalize (position load_position). intros a Ha.
  load_type_cases load_type; repeat split; at_the_end a L.
Qed.

Lemma cantilever_closed_form_ends :
  let cf := closed_form "cantilever" load_type L E second_moment M
              load_position in
  at_deflection cf 0 = 0
  /\ (load_type <> "moment" -> at_moment cf L = 0).
Proof.
  unfold closed_form. string_tests. cbv iota.
  revert Hspan. generalize (position load_position). intros a Ha.
  destruct (String.eqb_spec load_type "moment") as [Hm | Hm].
  - destruct (String.eqb load_type "point");
      destruct (String.eqb load_type "distributed");
      unfold zero_fields, cantilever_point, cantilever_distributed,
        cantilever_moment;
      cbn [at_deflection at_moment at_shear];
      (split; [ at_the_end a L | intros Hne; contradiction ]).
  - destruct (String.eqb load_type "point");
      destruct (String.eqb load_type "distributed");
      unfold zero_fields, cantilever_point, cantilever_distributed,
        cantilever_moment;
      cbn [at_deflection at_moment at_shear];
      (split; [ | intros _ ]; at_the_end a L).
Qed.

End Ends.

Lemma position_in_span (L : R) (load_position : option R) :
  0 < L ->
  (forall a, load_position = Some a -> 0 <= a <= L) ->
  0 <= position load_position <= L.
Proof.
  intros HL H. destruct load_position as [a |]; simpl.
  - apply H. reflexivity.
  - lra.
Qed.

(** The entries of a station map at the two ends of the beam. *)
Lemma map_at_ends (f : R -> R) (L : R) (N : Z) (xs : list R) :
  (2 <= N)%Z -> np.linspace 0 L N = Ok xs -> length xs = Z.to_nat N ->
  nth 0 (map f xs) 0 = f 0
  /\ nth (Z.to_nat N - 1) (map f xs) 0 = f L.
Proof.
  intros HN Hxs Hlen. split.
  - rewrite nth_map_lt by lia. rewrite (first_station L N xs HN Hxs).
    reflexivity.
  - rewrite nth_map_lt by lia. rewrite (last_station L N xs HN Hxs).
    reflexivity.
Qed.

(** X7: on a simply supported beam, with the load position (if any)
    within the span, the support entries that the code computes with an
    exact zero factor are 0: deflection and bending moment at the first
    station for every load type, the last deflection for every load
    type but the distributed one, the last bending moment for every
    load type but the point load. *)
Theorem simply_supported_ends (L E second_moment : R)
    (load_type : string) (M : R) (load_position : option R) (N : Z) :
  0 < L -> 0 < E -> 0 < second_moment -> M <> 0 ->
  (load_type = "point" \/ load_type = "moment" -> load_position <> None) ->
  (forall a, load_position = Some a -> 0 <= a <= L) ->
  (2 <= N)%Z ->
  exists r,
    euler_bernoulli L E second_moment load_type M load_position
      "simply_supported" N = Ok r
    /\ nth 0 (deflection r) 0 = 0
    /\ nth 0 (moment r) 0 = 0
    /\ (load_type <> "distributed" ->
        nth (Z.to_nat N - 1) (deflection r) 0 = 0)
    /\ (load_type <> "point" ->
        nth (Z.to_nat N - 1) (moment r) 0 = 0).
Proof.
  intros HL HE HI HM Hpos Hspan HN.
  pose proof (valid_not_invalid L E second_moment load_type M load_position
                HL HE HI HM Hpos) as Hval.
  destruct (solver_returns L E second_moment load_type M load_position
              "simply_supported" N Hval)
    as [r [Hr [Hx [Hlen [Hd [Hm _]]]]]]; [ lia | ].
  pose proof (simply_supported_closed_form_ends L E second_moment M load_type
                load_position HL HE HI
                (position_in_span L load_position HL Hspan))
    as [Hd0 [HdL [Hm0 HmL]]].
  destruct (map_at_ends
              (at_deflection (closed_form "simply_supported" load_type L E
                                second_moment M load_position))
              L N (x r) HN Hx Hlen) as [Hd1 Hd2].
  destruct (map_at_ends
              (at_moment (closed_form "simply_supported" load_type L E
                            second_moment M load_position))
              L N (x r) HN Hx Hlen) as [Hm1 Hm2].
  exists r. rewrite Hd, Hm. repeat split; intros; congruence.
Qed.

Lemma simply_supported_ends_witness :
  exists r,
    euler_bernoulli 4 200 1 "moment" 1000 (Some 1) "simply_supported" 101
    = Ok r
    /\ nth 0 (deflection r) 0 = 0
    /\ nth 0 (moment r) 0 = 0
    /\ ("moment" <> "distributed" ->
        nth (Z.to_nat 101 - 1) (deflection r) 0 = 0)
    /\ ("moment" <> "point" ->
        nth (Z.to_nat 101 - 1) (moment r) 0 = 0).
Proof.
  apply (simply_supported_ends 4 200 1 "moment" 1000 (Some 1) 101);
    try lra; try lia.
  - intros _. discriminate.
  - intros a Ha. injection Ha as <-. lra.
Defined.

(** X8: on a fixed-fixed beam, with the load position (if any) within
    the span, the deflection is 0 at the first station for every load
    type, and at the last station for every load type but the point
    load (whose last entry the code computes as a difference of
    terms). *)
Theorem fixed_fixed_ends (L E second_moment : R)
    (load_type : string) (M : R) (load_position : option R) (N : Z) :
  0 < L -> 0 < E -> 0 < second_moment -> M <> 0 ->
  (load_type = "point" \/ load_type = "moment" -> load_position <> None) ->
  (forall a, load_position = Some a -> 0 <= a <= L) ->
  (2 <= N)%Z ->
  exists r,
    euler_bernoulli L E second_moment load_type M load_position
      "fixed_fixed" N = Ok r
    /\ nth 0 (deflection r) 0 = 0
    /\ (load_type <> "point" ->
        nth (Z.to_nat N - 1) (deflection r) 0 = 0).
Proof.
  intros HL HE HI HM Hpos Hspan HN.
  pose proof (valid_not_invalid L E second_moment load_type M load_position
                HL HE HI HM Hpos) as Hval.
  destruct (solver_returns L E second_moment load_type M load_position
              "fixed_fixed" N Hval)
    as [r [Hr [Hx [Hlen [Hd _]]]]]; [ lia | ].
  pose proof (fixed_fixed_closed_form_ends L E second_moment M load_type
                load_position HL HE HI
                (position_in_span L load_position HL Hspan))
    as [Hd0 HdL].
  destruct (map_at_ends
              (at_deflection (closed_form "fixed_fixed" load_type L E
                                second_moment M load_position))
              L N (x r) HN Hx Hlen) as [Hd1 Hd2].
  exists r. rewrite Hd. repeat split; intros; congruence.
Qed.

Lemma fixed_fixed_ends_witness :
  exists r,
    euler_bernoulli 4 200 1 "distributed" 5000 None "fixed_fixed" 101 = Ok r
    /\ nth 0 (deflection r) 0 = 0
    /\ ("distributed" <> "point" ->
        nth (Z.to_nat 101 - 1) (deflection r) 0 = 0).
Proof.
  apply (fixed_fixed_ends 4 200 1 "distributed" 5000 None 101);
    try lra; try lia.
  - intros [H | H]; discriminate.
  - intros a Ha. discriminate.
Defined.

(** X9: on a cantilever, with the load position (if any) within the
    span, the deflection is 0 at the fixed end for every load type, and
    the bending moment is 0 at the free end for point and distributed
    loads. *)
Theorem cantilever_ends (L E second_moment : R)
    (load_type : string) (M : R) (load_position : option R) (N : Z) :
  0 < L -> 0 < E -> 0 < second_moment -> M <> 0 ->
  (load_type = "point" \/ load_type = "moment" -> load_position <> None) ->
  (forall a, load_position = Some a -> 0 <= a <= L) ->
  (2 <= N)%Z ->
  exists r,
    euler_bernoulli L E second_moment load_type M load_position
      "cantilever" N = Ok r
    /\ nth 0 (deflection r) 0 = 0
    /\ (load_type <> "moment" -> nth (Z.to_nat N - 1) (moment r) 0 = 0).
Proof.
  intros HL HE HI HM Hpos Hspan HN.
  pose proof (valid_not_invalid L E second_moment load_type M load_position
                HL HE HI HM Hpos) as Hval.
  destruct (solver_returns L E second_moment load_type M load_position
              "cantilever" N Hval)
    as [r [Hr [Hx [Hlen [Hd [Hm _]]]]]]; [ lia | ].
  pose proof (cantilever_closed_form_ends L E second_moment M load_type
                load_position HE HI
                (position_in_span L load_position HL Hspan))
    as [Hd0 HmL].
  destruct (map_at_ends
              (at_deflection (closed_form "cantilever" load_type L E
                                second_moment M load_position))
              L N (x r) HN Hx Hlen) as [Hd1 _].
  destruct (map_at_ends
              (at_moment (closed_form "cantilever" load_type L E
                            second_moment M load_position))
              L N (x r) HN Hx Hlen) as [_ Hm2].
  exists r. rewrite Hd, Hm. repeat split; try assumption; try congruence.
  intros Hne. rewrite Hm2. apply HmL. exact Hne.
Qed.

Lemma cantilever_ends_witness :
  exists r,
    euler_bernoulli 4 200 1 "distributed" 5000 None "cantilever" 101 = Ok r
    /\ nth 0 (deflection r) 0 = 0
    /\ ("distributed" <> "moment" ->
        nth (Z.to_nat 101 - 1) (moment r) 0 = 0).
Proof.
  apply (cantilever_ends 4 200 1 "distributed" 5000 None 101);
    try lra; try lia.
  - intros [H | H]; discriminate.
  - intros a Ha. discriminate.
Defined.

(** * Exact maxima *)

Lemma div_le_div (u v d : R) : 0 < d -> u <= v -> u / d <= v / d.
Proof.
  intros Hd Huv. unfold Rdiv. apply Rmult_le_compat_r; [ | exact Huv ].
  apply Rlt_le, Rinv_0_lt_compat, Hd.
Qed.

Lemma div_nonneg (u d : R) : 0 < d -> 0 <= u -> 0 <= u / d.
Proof.
  intros Hd Hu. unfold Rdiv. apply Rmult_le_pos; [ exact Hu | ].
  apply Rlt_le, Rinv_0_lt_compat, Hd.
Qed.

(** The maximum of [|w * g(x)|] over stations on which [|g|] is bounded
    by [B], and equal to [B] somewhere. *)
Lemma max_abs_of_scaled (f g : R -> R) (w B : R) (xs : list R) (m : R) :
  np.max (np.abs (map f xs)) = Ok m ->
  (forall xi, In xi xs -> f xi = w * g xi /\ Rabs (g xi) <= B) ->
  m <= Rabs w * B
  /\ ((exists xi, In xi xs /\ Rabs (g xi) = B) -> m = Rabs w * B).
Proof.
  intros Hmax Hall.
  assert (Hle : forall v, In v (map f xs) -> Rabs v <= Rabs w * B).
  { intros v Hv. apply in_map_iff in Hv as [xi [<- Hxi]].
    destruct (Hall xi Hxi) as [-> Hg]. rewrite Rabs_mult.
    apply Rmult_le_compat_l; [ apply Rabs_pos | exact Hg ]. }
  split.
  - apply (max_abs_le _ _ _ Hmax Hle).
  - intros [xi [Hxi Hg]].
    apply (max_abs_unique _ _ _ Hmax Hle).
    exists (f xi). split; [ apply in_map; exact Hxi | ].
    destruct (Hall xi Hxi) as [-> _]. rewrite Rabs_mult, Hg. reflexivity.
Qed.

(** The two end stations belong to the station array. *)
Lemma end_stations_In (L : R) (N : Z) (xs : list R) :
  (2 <= N)%Z -> np.linspace 0 L N = Ok xs -> length xs = Z.to_nat N ->
  In 0 xs /\ In L xs.
Proof.
  intros HN Hxs Hlen. split.
  - rewrite <- (first_station L N xs HN Hxs). apply nth_In. lia.
  - rewrite <- (last_station L N xs HN Hxs). apply nth_In. lia.
Qed.

Lemma Rabs_nonneg_le (v B : R) : 0 <= v -> v <= B -> Rabs v <= B.
Proof. intros H0 H1. rewrite Rabs_pos_eq; assumption. Qed.

(** With an odd number of stations, midspan is a station. *)
Lemma midspan_station (L : R) (N : Z) (xs : list R) :
  0 < L -> (3 <= N)%Z -> Z.odd N = true ->
  np.linspace 0 L N = Ok xs -> length xs = Z.to_nat N ->
  In (L / 2) xs.
Proof.
  intros HL HN Hodd Hxs Hlen.
  apply Z.odd_spec in Hodd as [m Hm].
  assert (H2 : (2 <= N)%Z) by lia.
  assert (Hk : (Z.to_nat m < Z.to_nat N)%nat) by lia.
  rewrite <- (Rplus_0_r (L / 2)).
  replace (L / 2 + 0) with (nth (Z.to_nat m) xs 0).
  - apply nth_In. lia.
  - rewrite (station_nth L N xs _ H2 Hxs Hk).
    rewrite INR_IZR_INZ, Z2Nat.id by lia.
    rewrite Hm, plus_IZR, mult_IZR.
    assert (0 < IZR m) by (apply IZR_lt; lia).
    field. lra.
Qed.

Lemma simply_supported_point_moment_bound (L E I P a xi : R) :
  0 < L -> 0 <= a <= L -> 0 <= xi <= L ->
  let g := fun x => if Rleb x a then (L - a) * x / L else a * (L - x) / L in
  at_moment (simply_supported_point L E I P a) xi = P * g xi
  /\ Rabs (g xi) <= a * (L - a) / L
  /\ Rabs (g a) = a * (L - a) / L.
Proof.
  intros HL Ha Hxi g. unfold g, simply_supported_point.
  cbn [at_moment]. repeat split.
  - decide_branches; field; lra.
  - decide_branches; apply Rabs_nonneg_le;
      try (apply div_nonneg; [ lra | nra ]);
      apply div_le_div; try lra; nra.
  - decide_branches; try lra.
    rewrite Rabs_pos_eq; [ field; lra | apply div_nonneg; [ lra | nra ] ].
Qed.




Lemma cantilever_end_load_bounds (L E I P xi : R) :
  0 < L -> 0 < E -> 0 < I -> 0 <= xi <= L ->
  let gd := fun x => x ^ 2 * (3 * L - x) / (6 * E * I) in
  let gm := fun x => - (L - x) in
  at_deflection (cantilever_point L E I P L) xi = P * gd xi
  /\ Rabs (gd xi) <= L ^ 3 / (3 * E * I)
  /\ Rabs (gd L) = L ^ 3 / (3 * E * I)
  /\ at_moment (cantilever_point L E I P L) xi = P * gm xi
  /\ Rabs (gm xi) <= L
  /\ Rabs (gm 0) = L.
Proof.
  intros HL HE HI Hxi gd gm. unfold gd, gm, cantilever_point.
  cbn [at_deflection at_moment].
  assert (HEI : 0 < 6 * E * I) by (apply Rmult_lt_0_compat; lra).
  assert (Hfull : L ^ 3 / (3 * E * I) = 2 * L ^ 3 / (6 * E * I))
    by (field; lra).
  assert (Hpoly : 0 <= xi ^ 2 * (3 * L - xi) <= 2 * L ^ 3).
  { split; [ apply Rmult_le_pos; [ apply pow2_ge_0 | lra ] | ].
    assert (0 <= (L - xi) * (2 * L ^ 2 + 2 * L * xi - xi ^ 2)).
    { apply Rmult_le_pos; [ lra | nra ]. }
    nra. }
  repeat split.
  - Rcmp_true (Rleb xi L). field. lra.
  - rewrite Hfull. apply Rabs_nonneg_le;
      [ apply div_nonneg | apply div_le_div ]; lra.
  - rewrite Hfull, Rabs_pos_eq.
    + field. lra.
    + apply div_nonneg; [ exact HEI | ].
      apply Rmult_le_pos; [ apply pow2_ge_0 | lra ].
  - Rcmp_true (Rleb xi L). ring.
  - rewrite Rabs_Ropp. apply Rabs_nonneg_le; lra.
  - rewrite Rabs_Ropp, Rabs_pos_eq; lra.
Qed.




Lemma cantilever_distributed_bounds (L E I w xi : R) :
  0 < L -> 0 < E -> 0 < I -> 0 <= xi <= L ->
  let gd := fun x =>
    x ^ 2 * (6 * L ^ 2 - 4 * L * x + x ^ 2) / (24 * E * I) in
  let gm := fun x => - ((L - x) ^ 2 / 2) in
  at_deflection (cantilever_distributed L E I w) xi = w * gd xi
  /\ Rabs (gd xi) <= L ^ 4 / (8 * E * I)
  /\ Rabs (gd L) = L ^ 4 / (8 * E * I)
  /\ at_moment (cantilever_distributed L E I w) xi = w * gm xi
  /\ Rabs (gm xi) <= L ^ 2 / 2
  /\ Rabs (gm 0) = L ^ 2 / 2.
Proof.
  intros HL HE HI Hxi gd gm. unfold gd, gm, cantilever_distributed.
  cbn [at_deflection at_moment].
  assert (HEI : 0 < 24 * E * I) by (apply Rmult_lt_0_compat; lra).
  assert (Hfull : L ^ 4 / (8 * E * I) = 3 * L ^ 4 / (24 * E * I))
    by (field; lra).
  assert (Hq : 0 <= 6 * L ^ 2 - 4 * L * xi + xi ^ 2).
  { replace (6 * L ^ 2 - 4 * L * xi + xi ^ 2)
      with ((xi - 2 * L) ^ 2 + 2 * L ^ 2) by ring.
    pose proof (pow2_ge_0 (xi - 2 * L)). pose proof (pow2_ge_0 L). lra. }
  assert (Hpoly : 0 <= xi ^ 2 * (6 * L ^ 2 - 4 * L * xi + xi ^ 2)
                  <= 3 * L ^ 4).
  { split; [ apply Rmult_le_pos; [ apply pow2_ge_0 | exact Hq ] | ].
    assert (0 <= (L - xi)
                 * (3 * L ^ 3 + 3 * L * xi * (L - xi) + xi ^ 3)).
    { apply Rmult_le_pos; [ lra | ].
      assert (0 <= L ^ 3) by (apply pow_le; lra).
      assert (0 <= xi ^ 3) by (apply pow_le; lra).
      assert (0 <= 3 * L * xi * (L - xi))
        by (repeat apply Rmult_le_pos; lra).
      lra. }
    assert (Hid : 3 * L ^ 4
                  - xi ^ 2 * (6 * L ^ 2 - 4 * L * xi + xi ^ 2)
                  = (L - xi)
                    * (3 * L ^ 3 + 3 * L * xi * (L - xi) + xi ^ 3))
      by ring.
    lra. }
  assert (Hsq : 0 <= (L - xi) ^ 2 <= L ^ 2).
  { split; [ apply pow2_ge_0 | ].
    replace (L ^ 2) with (L * L) by ring.
    replace ((L - xi) ^ 2) with ((L - xi) * (L - xi)) by ring.
    apply Rmult_le_compat; lra. }
  repeat split.
  - field. lra.
  - rewrite Hfull. apply Rabs_nonneg_le;
      [ apply div_nonneg | apply div_le_div ]; lra.
  - rewrite Hfull, Rabs_pos_eq.
    + field. lra.
    + apply div_nonneg; [ exact HEI | nra ].
  - field.
  - rewrite Rabs_Ropp. apply Rabs_nonneg_le; lra.
  - rewrite Rabs_Ropp, Rabs_pos_eq; [ field | nra ].
Qed.




Lemma fixed_fixed_distributed_bounds (L E I w xi : R) :
  0 < L -> 0 < E -> 0 < I -> 0 <= xi <= L ->
  let gd := fun x => x ^ 2 * (L - x) ^ 2 / (24 * E * I) in
  let gm := fun x => L ^ 2 / 12 - x * (L - x) / 2 in
  at_deflection (fixed_fixed_distributed L E I w) xi = w * gd xi
  /\ Rabs (gd xi) <= L ^ 4 / (384 * E * I)
  /\ Rabs (gd (L / 2)) = L ^ 4 / (384 * E * I)
  /\ at_moment (fixed_fixed_distributed L E I w) xi = w * gm xi
  /\ Rabs (gm xi) <= L ^ 2 / 12
  /\ Rabs (gm 0) = L ^ 2 / 12.
Proof.
  intros HL HE HI Hxi gd gm. unfold gd, gm, fixed_fixed_distributed.
  cbn [at_deflection at_moment].
  assert (HEI : 0 < 24 * E * I) by (apply Rmult_lt_0_compat; lra).
  assert (Hfull : L ^ 4 / (384 * E * I) = L ^ 4 / 16 / (24 * E * I))
    by (field; lra).
  destruct (product_bounds xi L Hxi) as [Hp0 Hp1].
  assert (Hpoly : 0 <= xi ^ 2 * (L - xi) ^ 2 <= L ^ 4 / 16).
  { replace (xi ^ 2 * (L - xi) ^ 2) with ((xi * (L - xi)) * (xi * (L - xi)))
      by ring.
    replace (L ^ 4 / 16) with ((L ^ 2 / 4) * (L ^ 2 / 4)) by field.
    split; [ apply Rmult_le_pos; assumption | ].
    apply Rmult_le_compat; assumption. }
  repeat split.
  - field. lra.
  - rewrite Hfull. apply Rabs_nonneg_le;
      [ apply div_nonneg | apply div_le_div ]; lra.
  - rewrite Hfull, Rabs_pos_eq.
    + field. lra.
    + apply div_nonneg; [ exact HEI | ].
      apply Rmult_le_pos; apply pow2_ge_0.
  - field.
  - apply Rabs_le. lra.
  - rewrite Rabs_pos_eq; [ field | ].
    assert (0 <= L ^ 2) by apply pow2_ge_0. lra.
Qed.




Lemma half_cubic_bounds (L y : R) :
  0 < L -> 0 <= y <= L / 2 ->
  0 <= y * (3 * L ^ 2 - 4 * y ^ 2) <= L ^ 3.
Proof.
  intros HL Hy.
  assert (Hsq : 4 * y ^ 2 <= L ^ 2).
  { replace (4 * y ^ 2) with ((2 * y) * (2 * y)) by ring.
    replace (L ^ 2) with (L * L) by ring.
    apply Rmult_le_compat; lra. }
  assert (HL2 : 0 <= L ^ 2) by apply pow2_ge_0.
  split.
  - apply Rmult_le_pos; lra.
  - assert (Hid : L ^ 3 - y * (3 * L ^ 2 - 4 * y ^ 2)
                  = (L - 2 * y) ^ 2 * (L + y)) by ring.
    assert (0 <= (L - 2 * y) ^ 2 * (L + y))
      by (apply Rmult_le_pos; [ apply pow2_ge_0 | lra ]).
    lra.
Qed.

Lemma midspan_load_deflection_bounds (L E I P xi : R) :
  0 < L -> 0 < E -> 0 < I -> 0 <= xi <= L ->
  let g := fun x =>
    if Rleb x (L / 2)
    then x * (3 * L ^ 2 - 4 * x ^ 2) / (48 * E * I)
    else (L - x) * (3 * L ^ 2 - 4 * (L - x) ^ 2) / (48 * E * I) in
  at_deflection (simply_supported_point L E I P (L / 2)) xi = P * g xi
  /\ Rabs (g xi) <= L ^ 3 / (48 * E * I)
  /\ Rabs (g (L / 2)) = L ^ 3 / (48 * E * I).
Proof.
  intros HL HE HI Hxi g. unfold g, simply_supported_point.
  cbn [at_deflection].
  assert (HEI : 0 < 48 * E * I) by (apply Rmult_lt_0_compat; lra).
  repeat split.
  - decide_branches; field; lra.
  - decide_branches.
    + destruct (half_cubic_bounds L xi HL) as [H0 H1]; [ lra | ].
      apply Rabs_nonneg_le; [ apply div_nonneg | apply div_le_div ]; lra.
    + destruct (half_cubic_bounds L (L - xi) HL) as [H0 H1]; [ lra | ].
      apply Rabs_nonneg_le; [ apply div_nonneg | apply div_le_div ]; lra.
  - Rcmp_true (Rleb (L / 2) (L / 2)).
    destruct (half_cubic_bounds L (L / 2) HL) as [H0 _]; [ lra | ].
    rewrite Rabs_pos_eq; [ field; lra | apply div_nonneg; lra ].
Qed.





(** * Equilibrium and validation order *)

Lemma closed_form_shear_ends (bc : string) (L E I P a : R)
    (p : option R) :
  0 < L -> 0 < a < L ->
  bc = "simply_supported" \/ bc = "fixed_fixed" ->
  at_shear (closed_form bc "point" L E I P (Some a)) 0
  - at_shear (closed_form bc "point" L E I P (Some a)) L = P
  /\ at_shear (closed_form bc "distributed" L E I P p) 0
     - at_shear (closed_form bc "distributed" L E I P p) L = P * L.
Proof.
  intros HL Ha [-> | ->];
    unfold closed_form, position; string_tests; cbv iota;
    unfold simply_supported_point, simply_supported_distributed,
      fixed_fixed_point, fixed_fixed_distributed, Rgtb;
    cbn [at_deflection at_moment at_shear];
    (split; decide_branches; try (exfalso; lra); field_positive).
Qed.




(** X17: the validation block reports the first check that fails, in
    the order: a non-positive length, E or second_moment (one message
    for the three), a zero magnitude, a point load without position, a
    moment without position; boundary condition and station count play
    no part. *)
Theorem validation_order (L E second_moment : R) (load_type : string)
    (M : R) (load_position : option R) (bc : string) (N : Z) :
  (L <= 0 \/ E <= 0 \/ second_moment <= 0 ->
   euler_bernoulli L E second_moment load_type M load_position bc N
   = Raise (ValueError "Length, E, and second_moment must be positive"))
  /\ (0 < L -> 0 < E -> 0 < second_moment -> M = 0 ->
      euler_bernoulli L E second_moment load_type M load_position bc N
      = Raise (ValueError "Load magnitude cannot be zero"))
  /\ (0 < L -> 0 < E -> 0 < second_moment -> M <> 0 ->
      load_type = "point" -> load_position = None ->
      euler_bernoulli L E second_moment load_type M load_position bc N
      = Raise (ValueError "Point load requires load_position"))
  /\ (0 < L -> 0 < E -> 0 < second_moment -> M <> 0 ->
      load_type = "moment" -> load_position = None ->
      euler_bernoulli L E second_moment load_type M load_position bc N
      = Raise (ValueError "Applied moment requires load_position")).
Proof.
  repeat apply conj.
  - intros H. unfold euler_bernoulli.
    assert (Hc : Rleb L 0 || Rleb E 0 || Rleb second_moment 0 = true).
    { destruct H as [H | [H | H]]; apply (proj2 (Rleb_true _ 0)) in H;
        rewrite H; repeat rewrite orb_true_r; reflexivity. }
    rewrite Hc. reflexivity.
  - intros HL HE HI HM. unfold euler_bernoulli.
    rewrite (positive_check _ _ _ HL HE HI).
    rewrite (proj2 (Reqb_true M 0) HM). reflexivity.
  - intros HL HE HI HM -> ->. unfold euler_bernoulli.
    rewrite (positive_check _ _ _ HL HE HI).
    rewrite (proj2 (Reqb_false M 0) HM). reflexivity.
  - intros HL HE HI HM -> ->. unfold euler_bernoulli.
    rewrite (positive_check _ _ _ HL HE HI).
    rewrite (proj2 (Reqb_false M 0) HM). reflexivity.
Qed.

(** * Further properties of the Euler buckling calculation *)

(** The square root of the second moment, the estimated area, and the
    radius of gyration built on it. *)
Lemma estimated_area_facts (I : R) :
  0 < I ->
  0 < sqrt I
  /\ sqrt I * sqrt I = I
  /\ 0 < sqrt (I / sqrt I)
  /\ sqrt (I / sqrt I) * sqrt (I / sqrt I) = sqrt I.
Proof.
  intros HI.
  assert (Hs : 0 < sqrt I) by (apply sqrt_lt_R0; exact HI).
  assert (Hss : sqrt I * sqrt I = I) by (apply sqrt_sqrt; lra).
  assert (Hq : I / sqrt I = sqrt I).
  { rewrite <- Hss at 1. field. lra. }
  repeat split; try assumption.
  - rewrite Hq. apply sqrt_lt_R0. exact Hs.
  - rewrite Hq. apply sqrt_sqrt. lra.
Qed.

(** A valid column: the call returns the record of the formulas, with
    the positive factor of its end condition. *)
Lemma buckling_returns (L E I : R) (end_conditions : string) (SF : R) :
  0 < L -> 0 < E -> 0 < I -> 0 < SF ->
  In end_conditions end_condition_names ->
  exists K,
    getitem K_factors end_conditions = Ok K /\ 0 < K
    /\ euler_buckling L E I end_conditions SF
       = Ok {| critical_load := PI ^ 2 * E * I / (K * L) ^ 2;
               design_load := PI ^ 2 * E * I / (K * L) ^ 2 / SF;
               critical_stress := PI ^ 2 * E * I / (K * L) ^ 2 / sqrt I;
               effective_length := K * L;
               K_factor := K;
               slenderness_ratio := K * L / sqrt (I / sqrt I);
               radius_of_gyration := sqrt (I / sqrt I);
               recommendation :=
                 recommend (K * L / sqrt (I / sqrt I)) |}.
Proof.
  intros HL HE HI HS Hin.
  destruct (K_factors_known end_conditions Hin) as [K [HK HKpos]].
  exists K. repeat split; try assumption.
  rewrite validated by assumption. rewrite HK. reflexivity.
Qed.
















(** X24: K_factor, effective length, radius of gyration, slenderness
    ratio and recommendation depend neither on the elastic modulus nor
    on the safety factor; critical load and critical stress do not
    depend on the safety factor. *)
Theorem slenderness_ignores_modulus_and_safety (L E I : R) (ec : string)
    (SF E' SF' : R) :
  0 < L -> 0 < E -> 0 < I -> 0 < SF -> In ec end_condition_names ->
  0 < E' -> 0 < SF' ->
  exists r r',
    euler_buckling L E I ec SF = Ok r
    /\ euler_buckling L E' I ec SF' = Ok r'
    /\ K_factor r' = K_factor r
    /\ effective_length r' = effective_length r
    /\ radius_of_gyration r' = radius_of_gyration r
    /\ slenderness_ratio r' = slenderness_ratio r
    /\ recommendation r' = recommendation r
    /\ (E' = E ->
        critical_load r' = critical_load r
        /\ critical_stress r' = critical_stress r).
Proof.
  intros HL HE HI HS Hin HE' HS'.
  destruct (buckling_returns L E I ec SF HL HE HI HS Hin)
    as [K [HK [HKpos Hr]]].
  destruct (buckling_returns L E' I ec SF' HL HE' HI HS' Hin)
    as [K' [HK' [_ Hr']]].
  assert (K' = K) by congruence. subst K'.
  do 2 eexists. split; [ exact Hr | ]. split; [ exact Hr' | ].
  cbn. repeat split; try reflexivity; subst; reflexivity.
Qed.

Lemma slenderness_ignores_modulus_and_safety_witness :
  exists r r',
    euler_buckling 4 200 1 "pinned" 1 = Ok r
    /\ euler_buckling 4 70 1 "pinned" 2 = Ok r'
    /\ K_factor r' = K_factor r
    /\ effective_length r' = effective_length r
    /\ radius_of_gyration r' = radius_of_gyration r
    /\ slenderness_ratio r' = slenderness_ratio r
    /\ recommendation r' = recommendation r
    /\ (70 = 200 ->
        critical_load r' = critical_load r
        /\ critical_stress r' = critical_stress r).
Proof.
  apply (slenderness_ignores_modulus_and_safety 4 200 1 "pinned" 1 70 2);
    try lra.
  simpl. tauto.
Defined.


(** X25: a longer column (same section and end condition) has a
    larger slenderness ratio and a smaller critical load, and its
    recommendation never moves to a stockier band: if the longer one is
    short so is the shorter one, if the shorter one is very slender so
    is the longer one. *)
Theorem longer_column_is_more_slender (L1 L2 E I : R) (ec : string)
    (SF : R) :
  0 < L1 -> L1 <= L2 -> 0 < E -> 0 < I -> 0 < SF ->
  In ec end_condition_names ->
  exists r1 r2,
    euler_buckling L1 E I ec SF = Ok r1
    /\ euler_buckling L2 E I ec SF = Ok r2
    /\ slenderness_ratio r1 <= slenderness_ratio r2
    /\ critical_load r2 <= critical_load r1
    /\ (recommendation r2 = short_column -> recommendation r1 = short_column)
    /\ (recommendation r1 = very_slender -> recommendation r2 = very_slender).
Proof.
  intros HL1 HL12 HE HI HS Hin.
  assert (HL2 : 0 < L2) by lra.
  destruct (buckling_returns L1 E I ec SF HL1 HE HI HS Hin)
    as [K [HK [HKpos Hr1]]].
  destruct (buckling_returns L2 E I ec SF HL2 HE HI HS Hin)
    as [K' [HK' [_ Hr2]]].
  assert (K' = K) by congruence. subst K'.
  destruct (estimated_area_facts I HI) as [Hs [Hss [Hrg Hrr]]].
  do 2 eexists. split; [ exact Hr1 | ]. split; [ exact Hr2 | ].
  cbn [slenderness_ratio critical_load recommendation].
  assert (HKL : K * L1 <= K * L2) by (apply Rmult_le_compat_l; lra).
  assert (HKL1 : 0 < K * L1) by (apply Rmult_lt_0_compat; assumption).
  assert (Hsl : K * L1 / sqrt (I / sqrt I) <= K * L2 / sqrt (I / sqrt I))
    by (apply div_le_div; assumption).
  repeat split.
  - exact Hsl.
  - assert (HN : 0 <= PI ^ 2 * E * I).
    { apply Rlt_le. apply Rmult_lt_0_compat; [ | exact HI ].
      apply Rmult_lt_0_compat; [ | exact HE ]. apply pow_lt, PI_RGT_0. }
    unfold Rdiv. apply Rmult_le_compat_l; [ exact HN | ].
    apply Rinv_le_contravar; [ apply pow_lt; exact HKL1 | ].
    apply pow_incr. lra.
  - intros H. apply (recommend_bands _) in H. apply (recommend_bands _). lra.
  - intros H. apply (recommend_bands _) in H. apply (recommend_bands _). lra.
Qed.

Lemma longer_column_is_more_slender_witness :
  exists r1 r2,
    euler_buckling 4 200 1 "pinned" 1 = Ok r1
    /\ euler_buckling 6 200 1 "pinned" 1 = Ok r2
    /\ slenderness_ratio r1 <= slenderness_ratio r2
    /\ critical_load r2 <= critical_load r1
    /\ (recommendation r2 = short_column -> recommendation r1 = short_column)
    /\ (recommendation r1 = very_slender -> recommendation r2 = very_slender).
Proof.
  apply (longer_column_is_more_slender 4 6 200 1 "pinned" 1); try lra.
  simpl. tauto.
Defined.

